(** * hyperglass: device configuration models

    A shallow embedding of [hyperglass/models/config/devices.py]: the
    [Device] model (identifier generation, platform rewriting, directive
    resolution, structured-output defaulting, attribute validation) and the
    [Devices] directory built from it.

    Conventions.
    - A Python [str] is a list of Unicode code points ([list N]); [py] turns
      an ASCII literal into one.
    - A Python [dict] is a [gmap]; a [set] of strings is a [gset]; a set of
      model objects hashed by their [id] is a [gmap] from id to the retained
      object.
    - Exceptions are values of [error]; code that raises, logs or touches
      the file system runs in the monad [M]. *)

From stdpp Require Import gmap strings list fin_maps sorting.
From Stdlib Require Import NArith Ascii.

Open Scope N_scope.

(** ** Python strings *)

Abbreviation str := (list N).

Definition py (s : string) : str :=
  Ascii.N_of_ascii <$> String.list_ascii_of_string s.

Module Str.

(** [Py_UNICODE_ISSPACE]: the code points [str.split()] separates on and
    the class [\s] matches in a [str] pattern. *)
Definition is_space (c : N) : bool :=
  ((9 <=? c) && (c <=? 13))            (* \t \n \v \f \r *)
  || ((28 <=? c) && (c <=? 32))        (* FS GS RS US, space *)
  || (c =? 133) || (c =? 160)          (* NEL, NBSP *)
  || (c =? 5760)                       (* U+1680 *)
  || ((8192 <=? c) && (c <=? 8202))    (* U+2000 .. U+200A *)
  || (c =? 8232) || (c =? 8233)        (* U+2028, U+2029 *)
  || (c =? 8239) || (c =? 8287)        (* U+202F, U+205F *)
  || (c =? 12288).                     (* U+3000 *)

Definition no_space (c : N) : Prop := is_space c = false.

Definition is_upper (c : N) : bool := (65 <=? c) && (c <=? 90).
Definition is_lower (c : N) : bool := (97 <=? c) && (c <=? 122).
Definition is_digit (c : N) : bool := (48 <=? c) && (c <=? 57).

Definition underscore : N := 95.
Definition hyphen : N := 45.

(** [str.lower()] on the characters that reach it in this module: ASCII
    letters are folded, every other ASCII character is left alone. *)
Definition lower_char (c : N) : N := if is_upper c then c + 32 else c.
Definition lower (s : str) : str := lower_char <$> s.

(** [s.split()]: maximal runs of non-whitespace, left to right; [word] is
    the run being read. *)
Fixpoint split_from (word s : str) : list str :=
  match s with
  | [] => match word with [] => [] | _ => [word] end
  | c :: s' =>
      if is_space c then
        match word with
        | [] => split_from [] s'
        | _ => word :: split_from [] s'
        end
      else split_from (word ++ [c]) s'
  end.

Definition split (s : str) : list str := split_from [] s.

(** [sep.join(words)] *)
Fixpoint join (sep : str) (words : list str) : str :=
  match words with
  | [] => []
  | [w] => w
  | w :: ws => w ++ sep ++ join sep ws
  end.

(** [s.lstrip()], [s.rstrip()], [s.strip()] *)
Fixpoint lstrip (s : str) : str :=
  match s with
  | [] => []
  | c :: s' => if is_space c then lstrip s' else s
  end.

Fixpoint rstrip (s : str) : str :=
  match s with
  | [] => []
  | c :: s' => if forallb is_space s then [] else c :: rstrip s'
  end.

Definition strip (s : str) : str := rstrip (lstrip s).

(** [re.sub(r"\s+", "_", s)]: every maximal whitespace run becomes one
    underscore; [in_run] says the previous character was whitespace. *)
Fixpoint collapse_from (in_run : bool) (s : str) : str :=
  match s with
  | [] => []
  | c :: s' =>
      if is_space c then
        if in_run then collapse_from true s'
        else underscore :: collapse_from true s'
      else c :: collapse_from false s'
  end.

Definition collapse (s : str) : str := collapse_from false s.

End Str.

(** ** Identifier generation ([Device._generate_id], inner [generate_id]) *)

Module Slug.
Import Str.

(** The characters the pattern [[^A-Za-z0-9\_\-\s]] does not match. *)
Definition kept (c : N) : bool :=
  is_upper c || is_lower c || is_digit c
  || (c =? underscore) || (c =? hyphen) || is_space c.

(** [re.sub(r"[^A-Za-z0-9\_\-\s]", "", name)] *)
Definition scrub (name : str) : str := filter (λ c, kept c = true) name.

(** [generate_id(name)] *)
Definition generate_id (name : str) : str :=
  let scrubbed := scrub name in
  lower (join [underscore] (split scrubbed)).

(** The identifier in the words of the specification: strip every
    character outside [[A-Za-z0-9_\- ]], collapse whitespace runs into
    single underscores, lowercase the result. *)
Definition spec_slug (name : str) : str := lower (collapse (scrub name)).

(** Membership in [[a-z0-9_-]]. *)
Definition id_char (c : N) : bool :=
  is_lower c || is_digit c || (c =? underscore) || (c =? hyphen).

End Slug.

(** ** Exceptions, results and effects *)

(** A keyword argument of an exception or log message: a string, or the
    one-element set literal [{values["name"]}] of [validate_device]. *)
Inductive kwarg :=
| KStr (s : str)
| KSet (elems : list str).

Inductive error :=
| ValueError (message : string)
| KeyError (key : string)
| ConfigError (message : string) (kwargs : list (string * kwarg))
| UnsupportedDevice (platform : str)
| ValidationError (model : string) (field : string)
| AttributeError (accessor : str)
| OSError (path : str).

Inductive result (A : Type) :=
| Ok (a : A)
| Raise (e : error).
Arguments Ok {A} a.
Arguments Raise {A} e.

#[global] Instance result_ret : MRet result := λ A a, Ok a.
#[global] Instance result_bind : MBind result := λ A B f r,
  match r with
  | Ok a => f a
  | Raise e => Raise e
  end.

(** What construction sees and changes outside the model objects: the
    files that exist ([Path.exists], [Path.touch]), the warnings logged,
    and the paths on which the file system refuses a call: [unreadable]
    ones cannot be examined, [unwritable] ones cannot be created (a missing
    or protected parent directory). *)
Record World := {
  files : gset str;
  warnings : list (string * list (string * str));
  unreadable : gset str;
  unwritable : gset str;
}.

Definition M (A : Type) : Type := World → result A * World.

#[global] Instance M_ret : MRet M := λ A a w, (Ok a, w).
#[global] Instance M_bind : MBind M := λ A B f m w,
  match m w with
  | (Ok a, w') => f a w'
  | (Raise e, w') => (Raise e, w')
  end.

Definition lift {A} (r : result A) : M A := λ w, (r, w).

Definition log_warning (message : string) (kwargs : list (string * str)) : M () :=
  λ w, (Ok (), {| files := files w;
                  warnings := warnings w ++ [(message, kwargs)];
                  unreadable := unreadable w;
                  unwritable := unwritable w |}).

(** [Path.exists()]: an [OSError] when the path cannot be examined. *)
Definition path_exists (p : str) : M bool :=
  λ w, if bool_decide (p ∈ unreadable w) then (Raise (OSError p), w)
       else (Ok (bool_decide (p ∈ files w)), w).

(** [Path.touch()]: an [OSError] when the file cannot be created. *)
Definition path_touch (p : str) : M () :=
  λ w, if bool_decide (p ∈ unwritable w) then (Raise (OSError p), w)
       else (Ok (), {| files := {[p]} ∪ files w;
                       warnings := warnings w;
                       unreadable := unreadable w;
                       unwritable := unwritable w |}).

(** ** Models this file imports *)

(** [Network], [Credential], [Proxy] and [Ssl] are sibling models; a device
    carries them as they are, reading [Network.display_name], [Ssl.enable]
    and [Ssl.cert] only. *)
Module Network.
Record t := { name : str; display_name : str }.
End Network.

Module Credential.
Record t := { username : str; password : str }.
End Credential.

Module Proxy.
Record t := { name : str; address : str }.
End Proxy.

Module Ssl.
Record t := { enable : bool; cert : option str }.
End Ssl.

Module Rule.
Record t := { commands : list str }.
End Rule.

Module Directive.
(** Modelled from the spec: the directive model of [hyperglass.models.directive]
    is not part of this file. A directive has an id, rules that each hold
    command templates, plugin file references, and is or is not a built-in
    of some platforms. *)
Record t := {
  id : str;
  rules : list Rule.t;
  plugins : list str;
  builtin : bool;
  platforms : list str;
}.
End Directive.

Module Directives.

(** Duplicates by id removed, first occurrence kept; [seen] holds the ids
    already emitted. *)
Fixpoint unique_from (seen : gset str) (ds : list Directive.t) : list Directive.t :=
  match ds with
  | [] => []
  | d :: ds' =>
      if decide (Directive.id d ∈ seen) then unique_from seen ds'
      else d :: unique_from ({[Directive.id d]} ∪ seen) ds'
  end.

Definition unique (ds : list Directive.t) : list Directive.t := unique_from ∅ ds.

(** Modelled from the spec: [Directives.filter_by_ids] is not part of this
    file; explicit ids are resolved against the catalog. *)
Definition filter_by_ids (self : list Directive.t) (ids : list str) : list Directive.t :=
  filter (λ d, Directive.id d ∈ ids) self.

(** Modelled from the spec: [Directives.device_builtins] is not part of this
    file; the catalog's built-in directives scoped to a platform. *)
Definition device_builtins (self : list Directive.t) (platform : str) : list Directive.t :=
  filter (λ d, Directive.builtin d = true ∧ platform ∈ Directive.platforms d) self.

(** Modelled from the spec: [Directives.matching] is not part of this file;
    the subset whose id is in the given list. *)
Definition matching (self : list Directive.t) (ids : list str) : list Directive.t :=
  filter (λ d, Directive.id d ∈ ids) self.

(** Modelled from the spec: [Directives.__add__] is not part of this file;
    left operand first, then the right one, duplicates by id removed
    keeping the first occurrence. *)
Definition add (self other : list Directive.t) : list Directive.t :=
  unique (self ++ other).

End Directives.

(** ** Raw definitions *)

(** A value given for the [builtins] option in the YAML. *)
Inductive OptionValue :=
| OBool (b : bool)
| OList (ids : list str)
| OOther.

(** An entry of the raw [directives] list: a string, a mapping of options,
    or anything else. *)
Inductive Statement :=
| SStr (s : str)
| SDict (items : list (str * OptionValue))
| SOther.

#[global] Instance OptionValue_eq_dec : EqDecision OptionValue.
Proof. solve_decision. Defined.

#[global] Instance Statement_eq_dec : EqDecision Statement.
Proof. solve_decision. Defined.

(** A raw [structured_output]: absent or null, a boolean, or another value. *)
Inductive RawFlag :=
| Unset
| Flag (b : bool)
| NotBool.

Inductive Address :=
| IPv4Address (a : str)
| IPv6Address (a : str)
| Hostname (h : str).

(** The keyword arguments a [Device] is constructed from. Fields that are given
    hold values of the declared field types; [kw_extra] holds the keys the
    model does not declare ([extra="allow"]). *)
Record RawDevice := {
  kw_name : option str;
  kw_display_name : option str;
  kw_address : Address;
  kw_network : Network.t;
  kw_credential : Credential.t;
  kw_proxy : option Proxy.t;
  kw_port : option Z;
  kw_ssl : option Ssl.t;
  kw_platform : option str;
  kw_directives : option (list Statement);
  kw_structured_output : RawFlag;
  kw_driver : option str;
  kw_attrs : option (gmap str str);
  kw_extra : gmap str str;
}.

(** [raw] with one key replaced. *)
Definition set_kw_name (name : option str) (raw : RawDevice) : RawDevice :=
  {| kw_name := name;
     kw_display_name := kw_display_name raw;
     kw_address := kw_address raw;
     kw_network := kw_network raw;
     kw_credential := kw_credential raw;
     kw_proxy := kw_proxy raw;
     kw_port := kw_port raw;
     kw_ssl := kw_ssl raw;
     kw_platform := kw_platform raw;
     kw_directives := kw_directives raw;
     kw_structured_output := kw_structured_output raw;
     kw_driver := kw_driver raw;
     kw_attrs := kw_attrs raw;
     kw_extra := kw_extra raw |}.

Definition set_kw_platform (platform : str) (raw : RawDevice) : RawDevice :=
  {| kw_name := kw_name raw;
     kw_display_name := kw_display_name raw;
     kw_address := kw_address raw;
     kw_network := kw_network raw;
     kw_credential := kw_credential raw;
     kw_proxy := kw_proxy raw;
     kw_port := kw_port raw;
     kw_ssl := kw_ssl raw;
     kw_platform := Some platform;
     kw_directives := kw_directives raw;
     kw_structured_output := kw_structured_output raw;
     kw_driver := kw_driver raw;
     kw_attrs := kw_attrs raw;
     kw_extra := kw_extra raw |}.

Definition set_kw_attrs (attrs : gmap str str) (raw : RawDevice) : RawDevice :=
  {| kw_name := kw_name raw;
     kw_display_name := kw_display_name raw;
     kw_address := kw_address raw;
     kw_network := kw_network raw;
     kw_credential := kw_credential raw;
     kw_proxy := kw_proxy raw;
     kw_port := kw_port raw;
     kw_ssl := kw_ssl raw;
     kw_platform := kw_platform raw;
     kw_directives := kw_directives raw;
     kw_structured_output := kw_structured_output raw;
     kw_driver := kw_driver raw;
     kw_attrs := Some attrs;
     kw_extra := kw_extra raw |}.

Definition set_kw_structured_output (value : RawFlag) (raw : RawDevice) : RawDevice :=
  {| kw_name := kw_name raw;
     kw_display_name := kw_display_name raw;
     kw_address := kw_address raw;
     kw_network := kw_network raw;
     kw_credential := kw_credential raw;
     kw_proxy := kw_proxy raw;
     kw_port := kw_port raw;
     kw_ssl := kw_ssl raw;
     kw_platform := kw_platform raw;
     kw_directives := kw_directives raw;
     kw_structured_output := value;
     kw_driver := kw_driver raw;
     kw_attrs := kw_attrs raw;
     kw_extra := kw_extra raw |}.

Definition set_kw_directives (statements : list Statement) (raw : RawDevice) : RawDevice :=
  {| kw_name := kw_name raw;
     kw_display_name := kw_display_name raw;
     kw_address := kw_address raw;
     kw_network := kw_network raw;
     kw_credential := kw_credential raw;
     kw_proxy := kw_proxy raw;
     kw_port := kw_port raw;
     kw_ssl := kw_ssl raw;
     kw_platform := kw_platform raw;
     kw_directives := Some statements;
     kw_structured_output := kw_structured_output raw;
     kw_driver := kw_driver raw;
     kw_attrs := kw_attrs raw;
     kw_extra := kw_extra raw |}.

(** ** What the module imports from the rest of hyperglass *)

Record Env := {
  (** [hyperglass.models.util.check_legacy_fields("Device", **kwargs)] *)
  check_legacy_fields : RawDevice → result RawDevice;
  (** [hyperglass.util.get_fmt_keys] *)
  get_fmt_keys : str → list str;
  (** [hyperglass.util.resolve_hostname]: the truth value of each item the
      generator yields *)
  resolve_hostname : str → list bool;
  (** [hyperglass.util.validate_platform], first component *)
  validate_platform : str → bool;
  (** [hyperglass.util.get_driver] *)
  get_driver : str → option str → result str;
  (** [hyperglass.constants.SCRAPE_HELPERS] *)
  SCRAPE_HELPERS : gmap str str;
  (** [hyperglass.constants.SUPPORTED_STRUCTURED_OUTPUT] *)
  SUPPORTED_STRUCTURED_OUTPUT : list str;
  (** [use_state("directives")] *)
  state_directives : list Directive.t;
  (** [Settings.app_path / "certs" / f"{name}.pem"] *)
  cert_path : str → str;
  (** [pathlib.Path(p)] *)
  Path : str → str;
}.

(** ** [DirectiveOptions] *)

Module DirectiveOptions.

(** [Union[StrictBool, List[StrictStr]]] *)
Inductive builtins_t :=
| Bool (b : bool)
| List (ids : list str).

Record t := { builtins : builtins_t }.

(** The constructor: [builtins] defaults to [True], keys the model does
    not declare are ignored, a value of another type is refused. *)
Definition init (kwargs : gmap str OptionValue) : result t :=
  match kwargs !! py "builtins" with
  | None => Ok {| builtins := Bool true |}
  | Some (OBool b) => Ok {| builtins := Bool b |}
  | Some (OList ids) => Ok {| builtins := List ids |}
  | Some OOther => Raise (ValidationError "DirectiveOptions" "builtins")
  end.

End DirectiveOptions.

(** ** [Device] *)

Module Device.

Record t := {
  id : str;
  name : str;
  address : Address;
  network : Network.t;
  credential : Credential.t;
  proxy : option Proxy.t;
  display_name : option str;
  port : Z;
  ssl : option Ssl.t;
  platform : str;
  directives : list Directive.t;
  structured_output : option bool;
  driver : option str;
  attrs : gmap str str;
  extra : gmap str str;
}.

(** [values["name"]] *)
Definition getitem_name (values : RawDevice) : result str :=
  match kw_name values with
  | Some name => Ok name
  | None => Raise (KeyError "name")
  end.

(** [{"name": display_name, "display_name": None, **values}] *)
Definition named (display_name : str) (values : RawDevice) : RawDevice :=
  {| kw_name := Some display_name;
     kw_display_name := None;
     kw_address := kw_address values;
     kw_network := kw_network values;
     kw_credential := kw_credential values;
     kw_proxy := kw_proxy values;
     kw_port := kw_port values;
     kw_ssl := kw_ssl values;
     kw_platform := kw_platform values;
     kw_directives := kw_directives values;
     kw_structured_output := kw_structured_output values;
     kw_driver := kw_driver values;
     kw_attrs := kw_attrs values;
     kw_extra := kw_extra values |}.

(** [_generate_id] *)
Definition _generate_id (values : RawDevice) : M (str * RawDevice) :=
  match kw_name values with
  | None => lift (Raise (ValueError "name is required."))
  | Some name =>
      '(device_id, display_name) ←
        match kw_display_name values with
        | Some legacy_display_name =>
            _ ← log_warning
                  "The 'display_name' field is deprecated. Use the 'name' field instead." [];
            mret (Slug.generate_id legacy_display_name, legacy_display_name)
        | None => mret (Slug.generate_id name, name)
        end;
      mret (device_id, named display_name values)
  end.

(** The world after [_generate_id]: a deprecation warning when the legacy
    field is given. *)
Definition after_generate_id (values : RawDevice) (w : World) : World :=
  match kw_display_name values with
  | Some _ =>
      {| files := files w;
         warnings := warnings w ++
           [("The 'display_name' field is deprecated. Use the 'name' field instead."%string, [])];
         unreadable := unreadable w;
         unwritable := unwritable w |}
  | None => w
  end.

(** [export_api] *)
Definition export_api (self : t) : gmap string str :=
  <["id" := id self]>
    (<["name" := name self]>
      (<["network" := Network.display_name (network self)]> ∅)).

(** [directive_commands] *)
Definition directive_commands (self : t) : list str :=
  directive ← directives self;
  rule ← Directive.rules directive;
  Rule.commands rule.

(** [directive_ids] *)
Definition directive_ids (self : t) : list str :=
  Directive.id <$> directives self.

(** [has_directives] *)
Definition has_directives (self : t) (ids : list str) : bool :=
  existsb (λ directive_id, bool_decide (directive_id ∈ directive_ids self)) ids.

(** The set [keys] of [_validate_directive_attrs]. *)
Definition attr_keys (env : Env) (self : t) : gset str :=
  list_to_set
    (filter (λ key, key ≠ py "target")
       (mjoin (get_fmt_keys env <$> directive_commands self))).

(** The loop of [_validate_directive_attrs] over the keys in the order the
    set yields them. *)
Fixpoint check_keys (name : str) (attrs : gmap str str) (keys : list str) : result () :=
  match keys with
  | [] => Ok ()
  | key :: keys' =>
      match attrs !! key with
      | None =>
          Raise (ConfigError
            "Device '{d}' has a command that references attribute '{a}', but '{a}' is missing from device attributes"
            [("d", KStr name); ("a", KStr key)])
      | Some _ => check_keys name attrs keys'
      end
  end.

(** [_validate_directive_attrs] *)
Definition _validate_directive_attrs (env : Env) (self : t) : result () :=
  let keys := attr_keys env self in
  let attrs := filter (λ kv, kv.1 ∈ keys) (attrs self) in
  check_keys (name self) attrs (elements keys).

(** [validate_address] *)
Definition validate_address (env : Env) (value : Address) (name : str) : result Address :=
  match value with
  | Hostname h =>
      if existsb (λ b, b) (resolve_hostname env h) then Ok value
      else Raise (ConfigError
             "Device '{d}' has an address of '{a}', which is not resolvable."
             [("d", KStr name); ("a", KStr h)])
  | _ => Ok value
  end.

(** [validate_structured_output] *)
Definition validate_structured_output (env : Env) (value : RawFlag)
    (name platform : str) : result bool :=
  match value with
  | Flag true =>
      if bool_decide (platform ∈ SUPPORTED_STRUCTURED_OUTPUT env) then Ok true
      else Raise (ConfigError
             "The 'structured_output' field is set to 'true' on device '{d}' with platform '{p}', which does not support structured output"
             [("d", KStr name); ("p", KStr platform)])
  | Unset =>
      if bool_decide (platform ∈ SUPPORTED_STRUCTURED_OUTPUT env) then Ok true
      else Ok false
  | _ => Ok false
  end.

(** [validate_ssl]; the validator does not run when no value is given. *)
Definition validate_ssl (env : Env) (value : option Ssl.t) (name : str) : M (option Ssl.t) :=
  match value with
  | Some v =>
      if Ssl.enable v && bool_decide (Ssl.cert v = None) then
        let cert_file := cert_path env name in
        _ ← (path_exists cert_file ≫= λ found : bool,
               if found then mret ()
               else _ ← log_warning "No certificate found for device {d}" [("d", name)];
                    path_touch cert_file);
        mret (Some {| Ssl.enable := Ssl.enable v; Ssl.cert := Some cert_file |})
      else mret (Some v)
  | None => mret None
  end.

(** What [validate_device] writes back into [values]: the keys [platform]
    and [directives]; every other key is returned as it came. *)
Record resolved := { r_platform : str; r_directives : list Directive.t }.

(** The options mapping built from the mapping entries of the raw list;
    a later entry overwrites an earlier one with the same key. *)
Definition merged_options (statements : list Statement) : gmap str OptionValue :=
  foldl (λ m kv, <[kv.1 := kv.2]> m) ∅
    (statement ← statements;
     match statement with SDict items => items | _ => [] end).

(** [statement.startswith("__")] *)
Definition startswith (s prefix : str) : bool :=
  bool_decide (take (length prefix) s = prefix).

(** The string entries of the raw list that do not start with [__]. *)
Definition string_ids (statements : list Statement) : list str :=
  statement ← statements;
  match statement with
  | SStr s => if startswith s (py "__") then [] else [s]
  | _ => []
  end.

(** [validate_device] *)
Definition validate_device (env : Env) (values : RawDevice) : result resolved :=
  match kw_platform values with
  | None =>
      name ← getitem_name values;
      Raise (ConfigError
        "Device '{device}' is missing a 'platform' (Network Operating System) property"
        [("device", KSet [name])])
  | Some platform =>
      let platform := default platform (SCRAPE_HELPERS env !! platform) in
      if negb (validate_platform env platform) then Raise (UnsupportedDevice platform)
      else
        let directives := state_directives env in
        let directive_ids := default [] (kw_directives values) in
        directive_options ← DirectiveOptions.init (merged_options directive_ids);
        let directive_ids := string_ids directive_ids in
        let device_directives := Directives.filter_by_ids directives directive_ids in
        let builtins := Directives.device_builtins directives platform in
        let device_directives :=
          match DirectiveOptions.builtins directive_options with
          | DirectiveOptions.Bool true => Directives.add device_directives builtins
          | DirectiveOptions.List ids =>
              Directives.add device_directives (Directives.matching builtins ids)
          | DirectiveOptions.Bool false => device_directives
          end in
        Ok {| r_platform := platform; r_directives := device_directives |}
  end.

(** [validate_driver]; the validator does not run when no value is given. *)
Definition validate_driver (env : Env) (value : option str) (platform : str)
    : result (option str) :=
  match value with
  | Some v => driver ← get_driver env platform (Some v); Ok (Some driver)
  | None => Ok None
  end.

(** The model once the inherited constructor has run its validators: the
    root validator first, then the fields in declaration order. *)
Definition super_init (env : Env) (_id : str) (values : RawDevice) : M t :=
  r ← lift (validate_device env values);
  name ← lift (getitem_name values);
  address ← lift (validate_address env (kw_address values) name);
  ssl ← validate_ssl env (kw_ssl values) name;
  structured_output ← lift (validate_structured_output env
                              (kw_structured_output values) name (r_platform r));
  driver ← lift (validate_driver env (kw_driver values) (r_platform r));
  mret {| id := _id;
          name := name;
          address := address;
          network := kw_network values;
          credential := kw_credential values;
          proxy := kw_proxy values;
          display_name := kw_display_name values;
          port := default 22%Z (kw_port values);
          ssl := ssl;
          platform := r_platform r;
          directives := r_directives r;
          structured_output := Some structured_output;
          driver := driver;
          attrs := default ∅ (kw_attrs values);
          extra := kw_extra values |}.

(** The constructor up to the attribute check: legacy fields, id
    generation, the inherited constructor. *)
Definition validated (env : Env) (kwargs : RawDevice) : M t :=
  kwargs ← lift (check_legacy_fields env kwargs);
  '(_id, values) ← _generate_id kwargs;
  super_init env _id values.

(** The constructor. *)
Definition init (env : Env) (kwargs : RawDevice) : M t :=
  self ← validated env kwargs;
  _ ← lift (_validate_directive_attrs env self);
  mret self.

(** [key] is a placeholder of a command of a directive of the device. *)
Definition referenced (env : Env) (self : t) (key : str) : Prop :=
  ∃ directive rule command,
    directive ∈ directives self
    ∧ rule ∈ Directive.rules directive
    ∧ command ∈ Rule.commands rule
    ∧ key ∈ get_fmt_keys env command.

(** The error of the attribute check for a device name and a key. *)
Definition missing_attr (name key : str) : error :=
  ConfigError
    "Device '{d}' has a command that references attribute '{a}', but '{a}' is missing from device attributes"
    [("d", KStr name); ("a", KStr key)].

(** [self] with another [attrs]. *)
Definition set_attrs (attrs' : gmap str str) (self : t) : t :=
  {| id := id self;
     name := name self;
     address := address self;
     network := network self;
     credential := credential self;
     proxy := proxy self;
     display_name := display_name self;
     port := port self;
     ssl := ssl self;
     platform := platform self;
     directives := directives self;
     structured_output := structured_output self;
     driver := driver self;
     attrs := attrs';
     extra := extra self |}.

End Device.

(** ** Directive resolution in the words of the specification *)

Module DirectiveSpec.

(** The entries of the mapping statements, in the order of the list. *)
Definition option_entries (statements : list Statement) : list (str * OptionValue) :=
  statement ← statements;
  match statement with SDict items => items | _ => [] end.

(** The value the last entry for [key] gives it. *)
Fixpoint last_value (key : str) (items : list (str * OptionValue)) : option OptionValue :=
  match items with
  | [] => None
  | (k, v) :: items' =>
      match last_value key items' with
      | Some v' => Some v'
      | None => if decide (k = key) then Some v else None
      end
  end.

(** The merged [builtins] option: [true] unless an entry sets it; [None]
    when the value set is neither a boolean nor a list of ids. *)
Definition builtins_option (statements : list Statement)
    : option DirectiveOptions.builtins_t :=
  match last_value (py "builtins") (option_entries statements) with
  | None => Some (DirectiveOptions.Bool true)
  | Some (OBool b) => Some (DirectiveOptions.Bool b)
  | Some (OList ids) => Some (DirectiveOptions.List ids)
  | Some OOther => None
  end.

(** The catalog's directives whose id is a string entry of the list that
    does not begin with [__]. *)
Definition explicit_directives (catalog : list Directive.t)
    (statements : list Statement) : list Directive.t :=
  filter (λ d, SStr (Directive.id d) ∈ statements
               ∧ Device.startswith (Directive.id d) (py "__") = false) catalog.

(** The catalog's built-ins of the platform. *)
Definition platform_builtins (catalog : list Directive.t) (platform : str)
    : list Directive.t :=
  filter (λ d, Directive.builtin d = true ∧ platform ∈ Directive.platforms d) catalog.

(** All of them, those whose id is listed, or none. *)
Definition effective_builtins (option : DirectiveOptions.builtins_t)
    (platform_builtins : list Directive.t) : list Directive.t :=
  match option with
  | DirectiveOptions.Bool true => platform_builtins
  | DirectiveOptions.List ids => filter (λ d, Directive.id d ∈ ids) platform_builtins
  | DirectiveOptions.Bool false => []
  end.

(** Explicit directives first, then the included built-ins, duplicates by
    id removed keeping the first occurrence. *)
Definition resolve (catalog : list Directive.t) (platform : str)
    (option : DirectiveOptions.builtins_t) (statements : list Statement)
    : list Directive.t :=
  Directives.unique
    (explicit_directives catalog statements
     ++ effective_builtins option (platform_builtins catalog platform)).

End DirectiveSpec.

(** ** [Devices] *)

(** Modelled from the spec: [HyperglassModelWithId] is not part of this
    file; equality and hash of such an object are defined by its id. A
    Python set of them is a map from id to the member it holds, and
    [set.add] leaves the set alone when it holds an equal member. *)
Definition set_add {A} (key : str) (x : A) (s : gmap str A) : gmap str A :=
  match s !! key with
  | Some _ => s
  | None => <[key := x]> s
  end.

(** The members of such a set, in the order iteration yields them. *)
Definition set_members {A} (s : gmap str A) : list A := (map_to_list s).*2.

(** [a <= b] on Python strings: lexicographic on code points. *)
Fixpoint str_leb (a b : str) : bool :=
  match a, b with
  | [], _ => true
  | _ :: _, [] => false
  | x :: a', y :: b' =>
      if x <? y then true else if y <? x then false else str_leb a' b'
  end.

Module Devices.

Record t := {
  ids : list str;
  hostnames : list str;
  objects : list Device.t;
}.

(** The loop of the constructor over [input_params], with the three sets
    it fills. *)
Fixpoint ingest (env : Env) (input_params : list RawDevice)
    (objects : gmap str Device.t) (hostnames ids : gset str)
    : M (gmap str Device.t * gset str * gset str) :=
  match input_params with
  | [] => mret (objects, hostnames, ids)
  | definition :: input_params' =>
      device ← Device.init env definition;
      ingest env input_params'
        (set_add (Device.id device) device objects)
        ({[Device.name device]} ∪ hostnames)
        ({[Device.id device]} ∪ ids)
  end.

(** The devices the loop constructs, in the order of [input_params]. *)
Fixpoint construct_all (env : Env) (input_params : list RawDevice) : M (list Device.t) :=
  match input_params with
  | [] => mret []
  | definition :: input_params' =>
      device ← Device.init env definition;
      devices ← construct_all env input_params';
      mret (device :: devices)
  end.

(** [sorted(objects, key=lambda x: x.name)] *)
Definition name_le (x y : Device.t) : Prop :=
  str_leb (Device.name x) (Device.name y) = true.

#[global] Instance name_le_dec x y : Decision (name_le x y) :=
  decide (str_leb (Device.name x) (Device.name y) = true).

Definition sorted_by_name (objects : list Device.t) : list Device.t :=
  merge_sort name_le objects.

(** The constructor. *)
Definition init (env : Env) (input_params : list RawDevice) : M t :=
  '(objects, hostnames, ids) ← ingest env input_params ∅ ∅ ∅;
  mret {| ids := elements ids;
          hostnames := elements hostnames;
          objects := sorted_by_name (set_members objects) |}.

(** [__getitem__] *)
Definition getitem (self : t) (accessor : str) : result Device.t :=
  match
    find (λ device, bool_decide (Device.id device = accessor)
                    || bool_decide (Device.name device = accessor))
         (objects self)
  with
  | Some device => Ok device
  | None => Raise (AttributeError accessor)
  end.

(** [export_api] *)
Definition export_api (self : t) : list (gmap string str) :=
  Device.export_api <$> objects self.

(** The directives of the devices, device by device. *)
Definition directives_in_use (self : t) : list Directive.t :=
  device ← objects self; Device.directives device.

(** The set [directives] of [directive_plugins]; directives are hashed by
    id as devices are. *)
Definition directive_set (self : t) : gmap str Directive.t :=
  foldl (λ s directive, set_add (Directive.id directive) directive s) ∅
    (directives_in_use self).

(** The set [plugin_names] of [directive_plugins]. *)
Definition plugin_names (directives : list Directive.t) : gset str :=
  list_to_set (directive ← directives; Directive.plugins directive).

(** The body of the inner loop: create the entry when it is missing, then
    add the directive id to it. *)
Definition add_plugin (directive_id : str) (result : gmap str (gset str))
    (plugin : str) : gmap str (gset str) :=
  let result :=
    match result !! plugin with
    | None => <[plugin := ∅]> result
    | Some _ => result
    end in
  alter (λ v, {[directive_id]} ∪ v) plugin result.

(** The ids filed under a path, none when the path has no entry. *)
Definition ids_at (result : gmap str (gset str)) (path : str) : gset str :=
  default ∅ (result !! path).

(** One turn of the outer loop, for a directive whose plugin paths are
    [paths directive]. *)
Definition file (paths : Directive.t → list str) (result : gmap str (gset str))
    (directive : Directive.t) : gmap str (gset str) :=
  foldl (add_plugin (Directive.id directive)) result (paths directive).

(** [directive_plugins] *)
Definition directive_plugins (env : Env) (self : t) : gmap str (list str) :=
  let directives := set_members (directive_set self) in
  let plugin_names := plugin_names directives in
  let result :=
    foldl (λ result directive,
             foldl (add_plugin (Directive.id directive)) result
               (Path env <$> filter (λ p, p ∈ plugin_names) (Directive.plugins directive)))
          ∅ directives in
  elements <$> result.

End Devices.

(** ** A small installation, for examples *)

Module Sample.

(** A stand-in for [get_fmt_keys]: the names between braces, in order. *)
Fixpoint fmt_keys_from (field : option str) (template : str) : list str :=
  match template with
  | [] => []
  | c :: rest =>
      match field with
      | None =>
          if c =? 123 then fmt_keys_from (Some []) rest
          else fmt_keys_from None rest
      | Some key =>
          if c =? 125 then
            match key with
            | [] => fmt_keys_from None rest
            | _ => key :: fmt_keys_from None rest
            end
          else fmt_keys_from (Some (key ++ [c])) rest
      end
  end.

Definition show_bgp : Directive.t :=
  {| Directive.id := py "show-bgp";
     Directive.rules := [{| Rule.commands := [py "show bgp {target}"] |}];
     Directive.plugins := [];
     Directive.builtin := false;
     Directive.platforms := [] |}.

Definition vrf_route : Directive.t :=
  {| Directive.id := py "vrf-route";
     Directive.rules := [{| Rule.commands := [py "show route vrf {vrf} {target}"] |}];
     Directive.plugins := [py "plugins/vrf.py"];
     Directive.builtin := false;
     Directive.platforms := [] |}.

Definition ios_bgp_route : Directive.t :=
  {| Directive.id := py "__hyperglass_cisco_ios_bgp_route__";
     Directive.rules := [{| Rule.commands := [py "show bgp ipv4 unicast {target}"] |}];
     Directive.plugins := [py "plugins/bgp_route.py"];
     Directive.builtin := true;
     Directive.platforms := [py "cisco_ios"] |}.

Definition ios_ping : Directive.t :=
  {| Directive.id := py "__hyperglass_cisco_ios_ping__";
     Directive.rules := [{| Rule.commands := [py "ping {target} source {source4}"] |}];
     Directive.plugins := [];
     Directive.builtin := true;
     Directive.platforms := [py "cisco_ios"] |}.

Definition junos_bgp_route : Directive.t :=
  {| Directive.id := py "__hyperglass_juniper_bgp_route__";
     Directive.rules := [{| Rule.commands := [py "show route protocol bgp {target}"] |}];
     Directive.plugins := [py "plugins/bgp_route.py"; py "plugins/juniper.py"];
     Directive.builtin := true;
     Directive.platforms := [py "juniper"] |}.

Definition env : Env :=
  {| check_legacy_fields := Ok;
     get_fmt_keys := fmt_keys_from None;
     resolve_hostname := λ h, [bool_decide (h = py "rtr1.example.net")];
     validate_platform := λ p,
       bool_decide (p ∈ [py "cisco_ios"; py "juniper"; py "frr"]);
     get_driver := λ _ driver, Ok (default (py "netmiko") driver);
     SCRAPE_HELPERS := <[py "ios" := py "cisco_ios"]> (<[py "junos" := py "juniper"]> ∅);
     SUPPORTED_STRUCTURED_OUTPUT := [py "juniper"];
     state_directives := [show_bgp; vrf_route; ios_bgp_route; ios_ping; junos_bgp_route];
     cert_path := λ name, py "/etc/hyperglass/certs/" ++ name ++ py ".pem";
     Path := λ p, p |}.

Definition world : World :=
  {| files := ∅; warnings := []; unreadable := ∅; unwritable := ∅ |}.

Definition network : Network.t :=
  {| Network.name := py "production"; Network.display_name := py "Production" |}.

Definition credential : Credential.t :=
  {| Credential.username := py "hyperglass"; Credential.password := py "s3cret" |}.

(** The device of the end-to-end example, with the attribute its built-in
    [ping] refers to. *)
Definition core_rtr : RawDevice :=
  {| kw_name := Some (py "Core RTR #1");
     kw_display_name := None;
     kw_address := IPv4Address (py "192.0.2.1");
     kw_network := network;
     kw_credential := credential;
     kw_proxy := None;
     kw_port := None;
     kw_ssl := None;
     kw_platform := Some (py "ios");
     kw_directives := Some [SStr (py "show-bgp")];
     kw_structured_output := Unset;
     kw_driver := None;
     kw_attrs := Some (<[py "source4" := py "192.0.2.1"]> ∅);
     kw_extra := ∅ |}.

(** The device [core_rtr] describes. *)
Definition core_device : Device.t :=
  {| Device.id := py "core_rtr_1";
     Device.name := py "Core RTR #1";
     Device.address := IPv4Address (py "192.0.2.1");
     Device.network := network;
     Device.credential := credential;
     Device.proxy := None;
     Device.display_name := None;
     Device.port := 22%Z;
     Device.ssl := None;
     Device.platform := py "cisco_ios";
     Device.directives := [show_bgp; ios_bgp_route; ios_ping];
     Device.structured_output := Some false;
     Device.driver := None;
     Device.attrs := <[py "source4" := py "192.0.2.1"]> ∅;
     Device.extra := ∅ |}.

(** A second definition with the id of [core_rtr]. *)
Definition core_rtr_again : RawDevice := set_kw_name (Some (py "core rtr 1")) core_rtr.

Definition core_device_again : Device.t :=
  {| Device.id := py "core_rtr_1";
     Device.name := py "core rtr 1";
     Device.address := IPv4Address (py "192.0.2.1");
     Device.network := network;
     Device.credential := credential;
     Device.proxy := None;
     Device.display_name := None;
     Device.port := 22%Z;
     Device.ssl := None;
     Device.platform := py "cisco_ios";
     Device.directives := [show_bgp; ios_bgp_route; ios_ping];
     Device.structured_output := Some false;
     Device.driver := None;
     Device.attrs := <[py "source4" := py "192.0.2.1"]> ∅;
     Device.extra := ∅ |}.

(** A directory of two devices, one per platform. *)
Definition edge_device : Device.t :=
  {| Device.id := py "edge_1";
     Device.name := py "Edge 1";
     Device.address := IPv4Address (py "192.0.2.7");
     Device.network := network;
     Device.credential := credential;
     Device.proxy := None;
     Device.display_name := None;
     Device.port := 22%Z;
     Device.ssl := None;
     Device.platform := py "juniper";
     Device.directives := [vrf_route; junos_bgp_route];
     Device.structured_output := Some true;
     Device.driver := None;
     Device.attrs := <[py "vrf" := py "internet"]> ∅;
     Device.extra := ∅ |}.

Definition directory : Devices.t :=
  {| Devices.ids := [py "core_rtr_1"; py "edge_1"];
     Devices.hostnames := [py "Core RTR #1"; py "Edge 1"];
     Devices.objects := [core_device; edge_device] |}.

(** The directives of the specification's example: [A] with plugins
    [p1] and [p2], [B] with plugin [p2]. *)
Definition directive_a : Directive.t :=
  {| Directive.id := py "A";
     Directive.rules := [];
     Directive.plugins := [py "p1"; py "p2"];
     Directive.builtin := false;
     Directive.platforms := [] |}.

Definition directive_b : Directive.t :=
  {| Directive.id := py "B";
     Directive.rules := [];
     Directive.plugins := [py "p2"];
     Directive.builtin := false;
     Directive.platforms := [] |}.

Definition device_with (directives : list Directive.t) (device : Device.t) : Device.t :=
  {| Device.id := Device.id device;
     Device.name := Device.name device;
     Device.address := Device.address device;
     Device.network := Device.network device;
     Device.credential := Device.credential device;
     Device.proxy := Device.proxy device;
     Device.display_name := Device.display_name device;
     Device.port := Device.port device;
     Device.ssl := Device.ssl device;
     Device.platform := Device.platform device;
     Device.directives := directives;
     Device.structured_output := Device.structured_output device;
     Device.driver := Device.driver device;
     Device.attrs := Device.attrs device;
     Device.extra := Device.extra device |}.

Definition directory_ab : Devices.t :=
  {| Devices.ids := [py "core_rtr_1"; py "edge_1"];
     Devices.hostnames := [py "Core RTR #1"; py "Edge 1"];
     Devices.objects :=
       [device_with [directive_a; directive_b] core_device;
        device_with [directive_b] edge_device] |}.

(** An installation whose alias table rewrites a canonical name again. *)
Definition chained_env : Env :=
  {| check_legacy_fields := check_legacy_fields env;
     get_fmt_keys := get_fmt_keys env;
     resolve_hostname := resolve_hostname env;
     validate_platform := validate_platform env;
     get_driver := get_driver env;
     SCRAPE_HELPERS := <[py "ios" := py "cisco_ios"]> (<[py "cisco_ios" := py "frr"]> ∅);
     SUPPORTED_STRUCTURED_OUTPUT := SUPPORTED_STRUCTURED_OUTPUT env;
     state_directives := state_directives env;
     cert_path := cert_path env;
     Path := Path env |}.

End Sample.

(** ** The rest of the module *)

Module DeviceMore.

(** [_target]: the text of the address. *)
Definition _target (self : Device.t) : str :=
  match Device.address self with
  | IPv4Address a => a
  | IPv6Address a => a
  | Hostname h => h
  end.

End DeviceMore.

Module Locations.

(** An entry of [locations] in [networks]; [F] is what [Directive.frontend]
    returns. *)
Record location (F : Type) := {
  id : str;
  name : str;
  network : str;
  directives : list F;
}.
Arguments id {F} _.
Arguments name {F} _.
Arguments network {F} _.
Arguments directives {F} _.

(** An entry of the list [networks] returns. *)
Record group (F : Type) := {
  display_name : str;
  locations : list (location F);
}.
Arguments display_name {F} _.
Arguments locations {F} _.

(** The network display name of a device. *)
Definition network_of (device : Device.t) : str :=
  Network.display_name (Device.network device).

(** The location built for a device; [frontend d] stands for
    [d.frontend(params)]. *)
Definition location_of {F} (frontend : Directive.t → F) (device : Device.t) : location F :=
  {| id := Device.id device;
     name := Device.name device;
     network := network_of device;
     directives := frontend <$> Device.directives device |}.

(** [Devices.networks] *)
Definition networks {F} (frontend : Directive.t → F) (self : Devices.t) : list (group F) :=
  let names : gset str := list_to_set (network_of <$> Devices.objects self) in
  (λ name,
     {| display_name := name;
        locations :=
          location_of frontend <$>
            filter (λ device, network_of device = name) (Devices.objects self) |})
  <$> elements names.

End Locations.

(** The second world holds every file and, first, every warning of the
    first one. *)
Definition extends (w w' : World) : Prop :=
  files w ⊆ files w' ∧ warnings w `prefix_of` warnings w'.

(** Every run of the computation ends in a world that extends the one it
    started in. *)
Definition monotone {A} (m : M A) : Prop :=
  ∀ w r w', m w = (r, w') → extends w w'.

Module Effects.

(** [validate_ssl] fills in a certificate path: SSL is enabled and no
    certificate is given. *)
Definition ssl_defaulted (value : option Ssl.t) : bool :=
  match value with
  | Some v => Ssl.enable v && bool_decide (Ssl.cert v = None)
  | None => false
  end.

Definition cert_warning (name : str) : string * list (string * str) :=
  ("No certificate found for device {d}"%string, [("d"%string, name)]).

Definition deprecation_warning : string * list (string * str) :=
  ("The 'display_name' field is deprecated. Use the 'name' field instead."%string, []).

(** The warnings construction logs after those of the world it starts in:
    the deprecation of [display_name], then the missing certificate. *)
Definition logged (env : Env) (k : RawDevice) (name : str) (w : World)
    : list (string * list (string * str)) :=
  (match kw_display_name k with Some _ => [deprecation_warning] | None => [] end)
  ++ (if ssl_defaulted (kw_ssl k) && negb (bool_decide (cert_path env name ∈ files w))
      then [cert_warning name] else []).

(** The files that exist after construction. *)
Definition touched (env : Env) (k : RawDevice) (name : str) (w : World) : gset str :=
  if ssl_defaulted (kw_ssl k) && negb (bool_decide (cert_path env name ∈ files w))
  then {[cert_path env name]} ∪ files w
  else files w.

(** The world once the missing certificate has been reported. *)
Definition warned (name : str) (w : World) : World :=
  {| files := files w;
     warnings := warnings w ++ [cert_warning name];
     unreadable := unreadable w;
     unwritable := unwritable w |}.

(** The world once the certificate file has been created, too. *)
Definition created (p name : str) (w : World) : World :=
  {| files := {[p]} ∪ files w;
     warnings := warnings w ++ [cert_warning name];
     unreadable := unreadable w;
     unwritable := unwritable w |}.

End Effects.

(** An entry of the raw [directives] list that selects nothing and sets no
    [builtins]: neither a string nor a mapping, a string that begins with
    [__], or a mapping without the key [builtins]. *)
Definition inert (statement : Statement) : Prop :=
  match statement with
  | SStr s => Device.startswith s (py "__") = true
  | SDict items => py "builtins" ∉ items.*1
  | SOther => True
  end.

Definition set_kw_ssl (ssl : option Ssl.t) (raw : RawDevice) : RawDevice :=
  {| kw_name := kw_name raw;
     kw_display_name := kw_display_name raw;
     kw_address := kw_address raw;
     kw_network := kw_network raw;
     kw_credential := kw_credential raw;
     kw_proxy := kw_proxy raw;
     kw_port := kw_port raw;
     kw_ssl := ssl;
     kw_platform := kw_platform raw;
     kw_directives := kw_directives raw;
     kw_structured_output := kw_structured_output raw;
     kw_driver := kw_driver raw;
     kw_attrs := kw_attrs raw;
     kw_extra := kw_extra raw |}.

Definition set_kw_display_name (display_name : option str) (raw : RawDevice) : RawDevice :=
  {| kw_name := kw_name raw;
     kw_display_name := display_name;
     kw_address := kw_address raw;
     kw_network := kw_network raw;
     kw_credential := kw_credential raw;
     kw_proxy := kw_proxy raw;
     kw_port := kw_port raw;
     kw_ssl := kw_ssl raw;
     kw_platform := kw_platform raw;
     kw_directives := kw_directives raw;
     kw_structured_output := kw_structured_output raw;
     kw_driver := kw_driver raw;
     kw_attrs := kw_attrs raw;
     kw_extra := kw_extra raw |}.

Definition set_kw_address (address : Address) (raw : RawDevice) : RawDevice :=
  {| kw_name := kw_name raw;
     kw_display_name := kw_display_name raw;
     kw_address := address;
     kw_network := kw_network raw;
     kw_credential := kw_credential raw;
     kw_proxy := kw_proxy raw;
     kw_port := kw_port raw;
     kw_ssl := kw_ssl raw;
     kw_platform := kw_platform raw;
     kw_directives := kw_directives raw;
     kw_structured_output := kw_structured_output raw;
     kw_driver := kw_driver raw;
     kw_attrs := kw_attrs raw;
     kw_extra := kw_extra raw |}.

Definition unset_kw_platform (raw : RawDevice) : RawDevice :=
  {| kw_name := kw_name raw;
     kw_display_name := kw_display_name raw;
     kw_address := kw_address raw;
     kw_network := kw_network raw;
     kw_credential := kw_credential raw;
     kw_proxy := kw_proxy raw;
     kw_port := kw_port raw;
     kw_ssl := kw_ssl raw;
     kw_platform := None;
     kw_directives := kw_directives raw;
     kw_structured_output := kw_structured_output raw;
     kw_driver := kw_driver raw;
     kw_attrs := kw_attrs raw;
     kw_extra := kw_extra raw |}.

Module Sample2.

(** [core_rtr] with the legacy field and SSL enabled without a certificate. *)
Definition secure_rtr : RawDevice :=
  set_kw_display_name (Some (py "Secure RTR"))
    (set_kw_ssl (Some {| Ssl.enable := true; Ssl.cert := None |}) Sample.core_rtr).

Definition secure_cert : str := py "/etc/hyperglass/certs/Secure RTR.pem".

Definition secure_world : World :=
  {| files := {[secure_cert]};
     warnings :=
       [("The 'display_name' field is deprecated. Use the 'name' field instead."%string, []);
        ("No certificate found for device {d}"%string, [("d"%string, py "Secure RTR")])];
     unreadable := ∅;
     unwritable := ∅ |}.

(** A world in which the certificate directory is missing: the default
    certificate file cannot be created. *)
Definition no_cert_dir : World :=
  {| files := ∅; warnings := []; unreadable := ∅; unwritable := {[secure_cert]} |}.

Definition secure_device : Device.t :=
  {| Device.id := py "secure_rtr";
     Device.name := py "Secure RTR";
     Device.address := IPv4Address (py "192.0.2.1");
     Device.network := Sample.network;
     Device.credential := Sample.credential;
     Device.proxy := None;
     Device.display_name := None;
     Device.port := 22%Z;
     Device.ssl := Some {| Ssl.enable := true; Ssl.cert := Some secure_cert |};
     Device.platform := py "cisco_ios";
     Device.directives := [Sample.show_bgp; Sample.ios_bgp_route; Sample.ios_ping];
     Device.structured_output := Some false;
     Device.driver := None;
     Device.attrs := <[py "source4" := py "192.0.2.1"]> ∅;
     Device.extra := ∅ |}.

End Sample2.

(** An entry of the raw [directives] list that does not set [builtins]. *)
Definition no_builtins (statement : Statement) : Prop :=
  match statement with
  | SDict items => py "builtins" ∉ items.*1
  | _ => True
  end.

(** A directive the resolution of a raw list selects from the catalog for a
    platform: one named by a string entry that does not begin with [__], or
    a built-in of the platform that the merged option includes. *)
Definition selected (statements : list Statement) (platform : str)
    (option : DirectiveOptions.builtins_t) (d : Directive.t) : Prop :=
  (SStr (Directive.id d) ∈ statements
   ∧ Device.startswith (Directive.id d) (py "__") = false)
  ∨ (Directive.builtin d = true
     ∧ platform ∈ Directive.platforms d
     ∧ match option with
       | DirectiveOptions.Bool b => b = true
       | DirectiveOptions.List ids => Directive.id d ∈ ids
       end).

(** * Properties *)

Example generate_id_core_rtr :
  Slug.generate_id (py "Core RTR #1") = py "core_rtr_1".
Proof. reflexivity. Qed.

Example generate_id_padded :
  Slug.generate_id (py "  Edge   (NYC)	01 ") = py "edge_nyc_01".
Proof. reflexivity. Qed.

(** ** Strings *)

Module StrFacts.
Import Str.

Lemma split_from_word (w s : str) :
  Forall no_space s →
  split_from w s = match w ++ s with [] => [] | _ => [w ++ s] end.
Proof.
  revert w. induction s as [|c s IH]; intros w Hs; simpl.
  - rewrite app_nil_r. reflexivity.
  - inversion Hs as [|? ? Hc Hs']; subst. unfold no_space in Hc. rewrite Hc.
    rewrite IH by assumption. rewrite <- app_assoc. reflexivity.
Qed.

Lemma split_from_Forall (P : N → Prop) (w s : str) :
  Forall P w → Forall P s → Forall (Forall P) (split_from w s).
Proof.
  revert w. induction s as [|c s IH]; intros w Hw Hs; simpl.
  - destruct w; constructor; auto.
  - inversion Hs as [|? ? Hc Hs']; subst.
    destruct (is_space c).
    + destruct w; [apply IH; auto | constructor; [assumption | apply IH; auto]].
    + apply IH; [apply Forall_app; auto | assumption].
Qed.

Lemma split_from_no_space (w s : str) :
  Forall no_space w → Forall (Forall no_space) (split_from w s).
Proof.
  revert w. induction s as [|c s IH]; intros w Hw; simpl.
  - destruct w; constructor; auto.
  - destruct (is_space c) eqn:Hc.
    + destruct w; [apply IH; auto | constructor; [assumption | apply IH; auto]].
    + apply IH. apply Forall_app; split; [assumption | repeat constructor; exact Hc].
Qed.

Lemma join_Forall (P : N → Prop) (sep : str) (ws : list str) :
  Forall P sep → Forall (Forall P) ws → Forall P (join sep ws).
Proof.
  intros Hsep. induction ws as [|w ws IH]; intros Hws; simpl; [constructor|].
  inversion Hws as [|? ? Hw Hws']; subst.
  destruct ws as [|w' ws]; [assumption|].
  apply Forall_app; split; [assumption|].
  apply Forall_app; split; [assumption | apply IH; assumption].
Qed.

Lemma split_from_nil_iff (w s : str) :
  split_from w s = [] ↔ w = [] ∧ forallb is_space s = true.
Proof.
  revert w. induction s as [|c s IH]; intros w; simpl.
  - destruct w; split; intros H; try done. by destruct H.
  - destruct (is_space c); simpl.
    + destruct w; [rewrite IH; tauto |]. split; [done | intros [? _]; done].
    + rewrite IH. split; [intros [H _]; by destruct w | intros [_ ?]; done].
Qed.

Lemma rstrip_cons (c : N) (s : str) :
  rstrip (c :: s) = if forallb is_space (c :: s) then [] else c :: rstrip s.
Proof. reflexivity. Qed.

(** Joining the words read after a started word: the word, then the rest
    with its whitespace runs collapsed and its trailing run dropped. *)
Lemma join_split_from (s : str) :
  (∀ w, w ≠ [] →
     join [underscore] (split_from w s) = w ++ collapse_from false (rstrip s))
  ∧ join [underscore] (split_from [] s) = collapse_from true (rstrip s).
Proof.
  induction s as [|c s [IHA IHB]].
  - split; [intros w Hw; simpl; destruct w; [done | by rewrite app_nil_r] | done].
  - split.
    + intros w Hw. rewrite rstrip_cons.
      cbn [split_from forallb]. destruct (is_space c) eqn:Hc; simpl.
      * destruct w as [|x w]; [done|].
        destruct (forallb is_space s) eqn:Hall.
        -- assert (split_from [] s = []) as -> by (apply split_from_nil_iff; done).
           simpl. by rewrite app_nil_r.
        -- destruct (split_from [] s) as [|w' ws] eqn:Hsp.
           { apply split_from_nil_iff in Hsp as [_ Hsp]. congruence. }
           cbn [join]. simpl. rewrite Hc.
           rewrite <- IHB. reflexivity.
      * rewrite IHA by (destruct w; done).
        rewrite <- app_assoc. simpl. rewrite Hc. reflexivity.
    + rewrite rstrip_cons. cbn [split_from forallb].
      destruct (is_space c) eqn:Hc; simpl.
      * destruct (forallb is_space s) eqn:Hall.
        -- assert (split_from [] s = []) as -> by (apply split_from_nil_iff; done).
           reflexivity.
        -- simpl. rewrite Hc. exact IHB.
      * rewrite IHA by done. simpl. rewrite Hc. reflexivity.
Qed.

Lemma collapse_rstrip_lstrip (s : str) :
  collapse_from true (rstrip s) = collapse_from false (rstrip (lstrip s)).
Proof.
  induction s as [|c s IH]; [done|].
  rewrite rstrip_cons. cbn [lstrip forallb].
  destruct (is_space c) eqn:Hc; simpl.
  - destruct (forallb is_space s) eqn:Hall.
    + rewrite <- IH. clear IH. induction s as [|x s IHs]; [done|].
      rewrite rstrip_cons, Hall. reflexivity.
    + simpl. rewrite Hc. exact IH.
  - rewrite Hc. simpl. rewrite Hc. reflexivity.
Qed.

(** [sep.join(s.split())] with [sep = "_"] collapses the whitespace runs
    of the stripped string. *)
Lemma join_split (s : str) :
  join [underscore] (split s) = collapse (strip s).
Proof.
  unfold split, collapse, strip.
  rewrite (proj2 (join_split_from s)). apply collapse_rstrip_lstrip.
Qed.

End StrFacts.

(** ** Identifier generation *)

Module SlugFacts.
Import Str Slug StrFacts.

Ltac bool_to_prop :=
  rewrite ?orb_true_iff, ?andb_true_iff, ?N.leb_le, ?N.eqb_eq in *.

Lemma id_char_kept (c : N) : id_char c = true → kept c = true.
Proof. unfold id_char, kept. bool_to_prop. tauto. Qed.

Lemma id_char_no_space (c : N) : id_char c = true → is_space c = false.
Proof.
  intros H. apply not_true_iff_false. revert H.
  unfold id_char, is_space, is_lower, is_digit, underscore, hyphen.
  bool_to_prop. lia.
Qed.

Lemma id_char_lower (c : N) : id_char c = true → lower_char c = c.
Proof.
  intros H. unfold lower_char.
  assert (is_upper c = false) as ->; [|done].
  apply not_true_iff_false. revert H.
  unfold id_char, is_upper, is_lower, is_digit, underscore, hyphen.
  bool_to_prop. lia.
Qed.

(** A character of a word of the scrubbed name, or the separator, is
    folded into [[a-z0-9_-]]. *)
Lemma lower_char_id_char (c : N) :
  kept c = true → is_space c = false → id_char (lower_char c) = true.
Proof.
  unfold kept. intros Hk Hs. rewrite Hs, orb_false_r in Hk. revert Hk.
  unfold lower_char. destruct (is_upper c) eqn:Hu; revert Hu;
    unfold id_char, is_upper, is_lower, is_digit, underscore, hyphen;
    [|rewrite <- not_true_iff_false]; bool_to_prop; lia.
Qed.

Lemma scrub_kept (name : str) : Forall (λ c, kept c = true) (scrub name).
Proof.
  apply Forall_forall. intros c Hc.
  apply list_elem_of_filter in Hc. tauto.
Qed.

Lemma scrub_fixed (s : str) : Forall (λ c, kept c = true) s → scrub s = s.
Proof.
  unfold scrub. induction 1 as [|c s Hc _ IH]; [done|].
  rewrite filter_cons_True by done. by rewrite IH.
Qed.

Lemma lower_fixed (s : str) : Forall (λ c, id_char c = true) s → lower s = s.
Proof.
  unfold lower. induction 1 as [|c s Hc _ IH]; [done|].
  simpl. rewrite id_char_lower by done.
  f_equal. exact IH.
Qed.

Lemma generate_id_chars (name : str) :
  Forall (λ c, id_char c = true) (generate_id name).
Proof.
  unfold generate_id, lower. apply Forall_fmap.
  apply Forall_impl with (P := λ c, kept c = true ∧ no_space c).
  2:{ intros c [Hk Hs]; simpl. by apply lower_char_id_char. }
  apply join_Forall; [by repeat constructor|].
  unfold split. eapply Forall_impl.
  - apply Forall_and; split.
    + apply (split_from_Forall (λ c, kept c = true)); [constructor | apply scrub_kept].
    + apply (split_from_no_space [] (scrub name)). constructor.
  - intros w [Hk Hs]. simpl in *. apply Forall_and. done.
Qed.

Lemma generate_id_fixed (i : str) :
  Forall (λ c, id_char c = true) i → generate_id i = i.
Proof.
  intros Hi. unfold generate_id.
  rewrite scrub_fixed by (eapply Forall_impl; [exact Hi | apply id_char_kept]).
  unfold split. rewrite split_from_word
    by (eapply Forall_impl; [exact Hi | apply id_char_no_space]).
  simpl. destruct i as [|c i]; [done|].
  simpl join. by apply lower_fixed.
Qed.

End SlugFacts.

(** C5, the claim as worded: every whitespace run of the scrubbed name
    becomes one underscore. It fails on a name with leading whitespace,
    which is valid (not empty after scrubbing): [split()] drops a leading
    or trailing run. *)
Lemma generate_id_leading_space_dropped :
  Slug.scrub (py " a") ≠ []
  ∧ Slug.generate_id (py " a") = py "a"
  ∧ Slug.spec_slug (py " a") = py "_a"
  ∧ Slug.generate_id (py " a") ≠ Slug.spec_slug (py " a").
Proof. split; [|split; [|split]]; vm_compute; congruence. Qed.

(** C5, amended: for every name, the derived id is made of characters in
    [[a-z0-9_-]] only (so it is lowercase), deriving an id from it again
    returns it unchanged, and it is the scrubbed name with leading and
    trailing whitespace dropped, every remaining whitespace run replaced by
    one underscore, lowercased. *)
Theorem generate_id_slug (name : str) :
  Forall (λ c, Slug.id_char c = true) (Slug.generate_id name)
  ∧ Str.lower (Slug.generate_id name) = Slug.generate_id name
  ∧ Slug.generate_id (Slug.generate_id name) = Slug.generate_id name
  ∧ Slug.generate_id name = Str.lower (Str.collapse (Str.strip (Slug.scrub name))).
Proof.
  pose proof (SlugFacts.generate_id_chars name) as Hc.
  split; [exact Hc|]. split; [by apply SlugFacts.lower_fixed|].
  split; [by apply SlugFacts.generate_id_fixed|].
  unfold Slug.generate_id. by rewrite StrFacts.join_split.
Qed.

(** ** The attribute check *)

Module AttrFacts.
Import Device.

Lemma attr_keys_spec (env : Env) (self : t) (key : str) :
  key ∈ attr_keys env self ↔ referenced env self key ∧ key ≠ py "target".
Proof.
  unfold attr_keys, referenced, directive_commands.
  rewrite elem_of_list_to_set, list_elem_of_filter, list_elem_of_join.
  split.
  - intros [Hne (keys & Hkey & Hkeys)]. split; [|done].
    apply list_elem_of_fmap in Hkeys as (command & -> & Hcommand).
    apply list_elem_of_bind in Hcommand as (directive & Hcommand & Hd).
    apply list_elem_of_bind in Hcommand as (rule & Hcommand & Hr).
    by exists directive, rule, command.
  - intros [(directive & rule & command & Hd & Hr & Hc & Hkey) Hne].
    split; [done|]. exists (get_fmt_keys env command). split; [done|].
    apply list_elem_of_fmap_2.
    apply list_elem_of_bind. exists directive. split; [|done].
    apply list_elem_of_bind. by exists rule.
Qed.

Lemma check_keys_ok (name : str) (attrs : gmap str str) (keys : list str) :
  (∀ key, key ∈ keys → is_Some (attrs !! key)) →
  check_keys name attrs keys = Ok ().
Proof.
  induction keys as [|key keys IH]; intros Hall; simpl; [done|].
  destruct (Hall key) as [v ->]; [by left|].
  apply IH. intros k Hk. apply Hall. by right.
Qed.

Lemma check_keys_raise (name : str) (attrs : gmap str str) (keys : list str) :
  (∃ key, key ∈ keys ∧ attrs !! key = None) →
  ∃ missing, missing ∈ keys ∧ attrs !! missing = None
             ∧ check_keys name attrs keys = Raise (missing_attr name missing).
Proof.
  induction keys as [|key keys IH]; intros (k & Hk & Hnone).
  - by apply elem_of_nil in Hk.
  - simpl. destruct (attrs !! key) eqn:Hkey.
    + destruct IH as (missing & ? & ? & ?).
      { exists k. split; [|done].
        apply elem_of_cons in Hk as [->|]; [congruence | done]. }
      exists missing. split; [by right | done].
    + exists key. split; [by left | done].
Qed.

(** The mapping the loop looks keys up in agrees with [attrs] on the keys
    of the loop. *)
Lemma filtered_attrs_lookup (keys : gset str) (attrs : gmap str str) (key : str) :
  key ∈ keys →
  filter (λ kv : str * str, kv.1 ∈ keys) attrs !! key = attrs !! key.
Proof.
  intros Hkey. destruct (attrs !! key) as [v|] eqn:Hv.
  - by apply map_lookup_filter_Some.
  - apply map_lookup_filter_None. by left.
Qed.

Lemma validate_ok (env : Env) (self : t) :
  (∀ key, referenced env self key → key ≠ py "target" → is_Some (attrs self !! key)) →
  _validate_directive_attrs env self = Ok ().
Proof.
  intros Hall. unfold _validate_directive_attrs.
  apply check_keys_ok. intros key Hkey. apply elem_of_elements in Hkey.
  rewrite filtered_attrs_lookup by done.
  apply attr_keys_spec in Hkey as [? ?]. by apply Hall.
Qed.

Lemma validate_raise (env : Env) (self : t) (key : str) :
  referenced env self key → key ≠ py "target" → attrs self !! key = None →
  ∃ missing,
    referenced env self missing ∧ missing ≠ py "target"
    ∧ attrs self !! missing = None
    ∧ _validate_directive_attrs env self = Raise (missing_attr (name self) missing).
Proof.
  intros Href Hne Hnone. unfold _validate_directive_attrs.
  destruct (check_keys_raise (name self)
              (filter (λ kv : str * str, kv.1 ∈ attr_keys env self) (attrs self))
              (elements (attr_keys env self))) as (missing & Hin & Hm & Heq).
  { exists key. assert (key ∈ attr_keys env self) by by apply attr_keys_spec.
    split; [by apply elem_of_elements|]. by rewrite filtered_attrs_lookup. }
  apply elem_of_elements in Hin.
  rewrite filtered_attrs_lookup in Hm by done.
  apply attr_keys_spec in Hin as [? ?]. by exists missing.
Qed.

Lemma init_validated (env : Env) (kwargs : RawDevice) (w w' : World) (self : t) :
  validated env kwargs w = (Ok self, w') →
  init env kwargs w =
    (match _validate_directive_attrs env self with
     | Ok _ => Ok self
     | Raise e => Raise e
     end, w').
Proof.
  intros H. unfold init, mbind, M_bind at 1. rewrite H.
  unfold M_bind, lift. by destruct (_validate_directive_attrs env self).
Qed.

End AttrFacts.

(** ** Construction *)

Module MonadFacts.

Lemma bind_Ok {A B} (m : M A) (f : A → M B) (w w1 : World) (a : A) :
  m w = (Ok a, w1) → (m ≫= f) w = f a w1.
Proof. intros H. unfold mbind, M_bind. by rewrite H. Qed.

Lemma bind_Raise {A B} (m : M A) (f : A → M B) (w w1 : World) (e : error) :
  m w = (Raise e, w1) → (m ≫= f) w = (Raise e, w1).
Proof. intros H. unfold mbind, M_bind. by rewrite H. Qed.

Lemma bind_Ok_inv {A B} (m : M A) (f : A → M B) (w w' : World) (b : B) :
  (m ≫= f) w = (Ok b, w') →
  ∃ a w1, m w = (Ok a, w1) ∧ f a w1 = (Ok b, w').
Proof.
  unfold mbind, M_bind. destruct (m w) as [[a|e] w1]; intros H; [|done].
  by exists a, w1.
Qed.

Lemma lift_Ok_inv {A} (r : result A) (w w' : World) (a : A) :
  lift r w = (Ok a, w') → r = Ok a ∧ w' = w.
Proof. unfold lift. by intros [= -> ->]. Qed.

Lemma ret_Ok_inv {A} (a b : A) (w w' : World) :
  mret (M := M) a w = (Ok b, w') → a = b ∧ w' = w.
Proof. unfold mret, M_ret. by intros [= -> ->]. Qed.

End MonadFacts.

Module DeviceFacts.
Import Device MonadFacts.

Lemma _generate_id_named (values : RawDevice) (name : str) (w : World) :
  kw_name values = Some name →
  let display_name := default name (kw_display_name values) in
  _generate_id values w =
    (Ok (Slug.generate_id display_name, named display_name values),
     after_generate_id values w).
Proof.
  intros Hname. unfold _generate_id, after_generate_id. rewrite Hname.
  by destruct (kw_display_name values).
Qed.

Lemma _generate_id_nameless (values : RawDevice) (w : World) :
  kw_name values = None →
  _generate_id values w = (Raise (ValueError "name is required."), w).
Proof. intros Hname. unfold _generate_id. by rewrite Hname. Qed.

Lemma validated_named (env : Env) (kwargs k : RawDevice) (name : str) (w : World) :
  check_legacy_fields env kwargs = Ok k →
  kw_name k = Some name →
  let display_name := default name (kw_display_name k) in
  validated env kwargs w
    = super_init env (Slug.generate_id display_name) (named display_name k)
        (after_generate_id k w).
Proof.
  intros Hk Hname. unfold validated.
  erewrite bind_Ok by (unfold lift; rewrite Hk; reflexivity).
  erewrite bind_Ok by (apply (_generate_id_named _ name); exact Hname).
  reflexivity.
Qed.

Lemma validated_nameless (env : Env) (kwargs k : RawDevice) (w : World) :
  check_legacy_fields env kwargs = Ok k →
  kw_name k = None →
  validated env kwargs w = (Raise (ValueError "name is required."), w).
Proof.
  intros Hk Hname. unfold validated.
  erewrite bind_Ok by (unfold lift; rewrite Hk; reflexivity).
  apply bind_Raise. by apply _generate_id_nameless.
Qed.

Lemma validated_inv (env : Env) (kwargs : RawDevice) (w w' : World) (self : t) :
  validated env kwargs w = (Ok self, w') →
  ∃ k name,
    check_legacy_fields env kwargs = Ok k
    ∧ kw_name k = Some name
    ∧ let display_name := default name (kw_display_name k) in
      super_init env (Slug.generate_id display_name) (named display_name k)
        (after_generate_id k w) = (Ok self, w').
Proof.
  unfold validated. intros H.
  apply bind_Ok_inv in H as (k & w1 & Hk & H).
  apply lift_Ok_inv in Hk as [Hk ->].
  apply bind_Ok_inv in H as ([_id values] & w2 & Hgen & H).
  destruct (kw_name k) as [name|] eqn:Hname.
  - rewrite (_generate_id_named k name w Hname) in Hgen.
    injection Hgen as <- <- <-. by exists k, name.
  - by rewrite _generate_id_nameless in Hgen.
Qed.

Lemma init_inv (env : Env) (kwargs : RawDevice) (w w' : World) (self : t) :
  init env kwargs w = (Ok self, w') →
  validated env kwargs w = (Ok self, w')
  ∧ _validate_directive_attrs env self = Ok ().
Proof.
  unfold init. intros H.
  apply bind_Ok_inv in H as (self' & w1 & Hv & H).
  apply bind_Ok_inv in H as ([] & w2 & Hattrs & H).
  apply lift_Ok_inv in Hattrs as [Hattrs ->].
  apply ret_Ok_inv in H as [-> ->]. done.
Qed.

(** What a successful run of the inherited constructor went through. *)
Lemma super_init_inv (env : Env) (_id : str) (values : RawDevice)
    (w w' : World) (self : t) :
  super_init env _id values w = (Ok self, w') →
  ∃ r name address ssl structured_output driver,
    validate_device env values = Ok r
    ∧ kw_name values = Some name
    ∧ validate_address env (kw_address values) name = Ok address
    ∧ validate_ssl env (kw_ssl values) name w = (Ok ssl, w')
    ∧ validate_structured_output env (kw_structured_output values) name
        (r_platform r) = Ok structured_output
    ∧ validate_driver env (kw_driver values) (r_platform r) = Ok driver
    ∧ self = {| id := _id; name := name; address := address;
                network := kw_network values;
                credential := kw_credential values;
                proxy := kw_proxy values;
                display_name := kw_display_name values;
                port := default 22%Z (kw_port values);
                ssl := ssl;
                platform := r_platform r;
                directives := r_directives r;
                structured_output := Some structured_output;
                driver := driver;
                attrs := default ∅ (kw_attrs values);
                extra := kw_extra values |}.
Proof.
  unfold super_init. intros H.
  apply bind_Ok_inv in H as (r & w1 & Hr & H).
  apply lift_Ok_inv in Hr as [Hr ->].
  apply bind_Ok_inv in H as (name & w1 & Hname & H).
  apply lift_Ok_inv in Hname as [Hname ->].
  apply bind_Ok_inv in H as (address & w1 & Haddr & H).
  apply lift_Ok_inv in Haddr as [Haddr ->].
  apply bind_Ok_inv in H as (ssl & w1 & Hssl & H).
  apply bind_Ok_inv in H as (so & w2 & Hso & H).
  apply lift_Ok_inv in Hso as [Hso ->].
  apply bind_Ok_inv in H as (driver & w2 & Hdriver & H).
  apply lift_Ok_inv in Hdriver as [Hdriver ->].
  apply ret_Ok_inv in H as [<- ->].
  exists r, name, address, ssl, so, driver.
  repeat split; try done.
  unfold getitem_name in Hname. destruct (kw_name values); by inversion Hname.
Qed.

(** The inherited constructor reads [attrs] only to store it. *)
Lemma super_init_set_attrs (env : Env) (_id : str) (values : RawDevice)
    (attrs' : gmap str str) (w w' : World) (self : t) :
  super_init env _id values w = (Ok self, w') →
  super_init env _id (set_kw_attrs attrs' values) w = (Ok (set_attrs attrs' self), w').
Proof.
  intros H. apply super_init_inv in H
    as (r & name & address & ssl & so & driver & Hr & Hname & Haddr & Hssl & Hso & Hdrv & ->).
  unfold super_init.
  assert (validate_device env (set_kw_attrs attrs' values) = Ok r) as Hr'.
  { rewrite <- Hr. unfold validate_device, getitem_name. reflexivity. }
  erewrite bind_Ok by (unfold lift; rewrite Hr'; reflexivity).
  erewrite bind_Ok by (unfold lift, getitem_name; simpl; rewrite Hname; reflexivity).
  erewrite bind_Ok by (unfold lift; simpl; rewrite Haddr; reflexivity).
  erewrite bind_Ok by (simpl; exact Hssl).
  erewrite bind_Ok by (unfold lift; simpl; rewrite Hso; reflexivity).
  erewrite bind_Ok by (unfold lift; simpl; rewrite Hdrv; reflexivity).
  reflexivity.
Qed.

End DeviceFacts.

(** C1. For a device whose validators have run, the attribute check decides
    construction: when every placeholder key other than [target] that a
    command of a resolved directive refers to is in [attrs], construction
    returns the device; when one is absent, construction raises the
    [ConfigError] carrying the device name and a key that is referred to
    and absent. *)
Theorem directive_attrs_checked (env : Env) (kwargs : RawDevice) (w w' : World)
    (self : Device.t) :
  Device.validated env kwargs w = (Ok self, w') →
  ((∀ key, Device.referenced env self key → key ≠ py "target" →
           is_Some (Device.attrs self !! key)) →
   Device.init env kwargs w = (Ok self, w'))
  ∧ (∀ key, Device.referenced env self key → key ≠ py "target" →
            Device.attrs self !! key = None →
     ∃ missing,
       Device.referenced env self missing ∧ missing ≠ py "target"
       ∧ Device.attrs self !! missing = None
       ∧ Device.init env kwargs w =
           (Raise (ConfigError
              "Device '{d}' has a command that references attribute '{a}', but '{a}' is missing from device attributes"
              [("d", KStr (Device.name self)); ("a", KStr missing)]), w')).
Proof.
  intros Hv. rewrite (AttrFacts.init_validated env kwargs w w' self Hv). split.
  - intros Hall. by rewrite AttrFacts.validate_ok.
  - intros key Href Hne Hnone.
    destruct (AttrFacts.validate_raise env self key Href Hne Hnone)
      as (missing & ? & ? & ? & ->).
    by exists missing.
Qed.

Lemma directive_attrs_checked_witness :
  Device.init Sample.env Sample.core_rtr Sample.world
    = (Ok Sample.core_device, Sample.world)
  ∧ ∃ missing,
      Device.init Sample.env (set_kw_attrs ∅ Sample.core_rtr) Sample.world
        = (Raise (ConfigError
             "Device '{d}' has a command that references attribute '{a}', but '{a}' is missing from device attributes"
             [("d", KStr (py "Core RTR #1")); ("a", KStr missing)]), Sample.world).
Proof.
  split.
  - apply directive_attrs_checked; [vm_compute; reflexivity|].
    intros key Href Hne.
    assert (key ∈ elements (Device.attr_keys Sample.env Sample.core_device)) as Hkey.
    { apply elem_of_elements, AttrFacts.attr_keys_spec. by split. }
    vm_compute in Hkey. apply list_elem_of_In in Hkey as [<-|[]].
    vm_compute. eauto.
  - destruct (directive_attrs_checked Sample.env (set_kw_attrs ∅ Sample.core_rtr)
                Sample.world Sample.world (Device.set_attrs ∅ Sample.core_device))
      as [_ Hraise]; [vm_compute; reflexivity|].
    destruct (Hraise (py "source4")) as (missing & _ & _ & _ & Hinit).
    + exists Sample.ios_ping, {| Rule.commands := [py "ping {target} source {source4}"] |},
        (py "ping {target} source {source4}").
      repeat split; vm_compute; repeat constructor.
    + vm_compute. discriminate.
    + reflexivity.
    + exists missing. exact Hinit.
Defined.

Module AttrMonotone.
Import Device MonadFacts DeviceFacts.

Lemma validate_ok_inv (env : Env) (self : t) (key : str) :
  _validate_directive_attrs env self = Ok () →
  referenced env self key → key ≠ py "target" → is_Some (attrs self !! key).
Proof.
  intros Hok Href Hne. destruct (attrs self !! key) eqn:Hkey; [by eexists|].
  destruct (AttrFacts.validate_raise env self key Href Hne Hkey)
    as (? & _ & _ & _ & Hraise).
  congruence.
Qed.

Lemma validated_set_attrs (env : Env) (kwargs k : RawDevice)
    (attrs' : gmap str str) (w w' : World) (self : t) :
  check_legacy_fields env kwargs = Ok k →
  check_legacy_fields env (set_kw_attrs attrs' kwargs) = Ok (set_kw_attrs attrs' k) →
  validated env kwargs w = (Ok self, w') →
  validated env (set_kw_attrs attrs' kwargs) w = (Ok (set_attrs attrs' self), w').
Proof.
  intros Hk Hk' Hv.
  apply validated_inv in Hv as (k0 & name & Hk0 & Hname & Hsuper).
  assert (k0 = k) as -> by congruence.
  unfold validated.
  erewrite bind_Ok by (unfold lift; rewrite Hk'; reflexivity).
  erewrite bind_Ok by (apply (_generate_id_named _ name); exact Hname).
  simpl in *. by apply (super_init_set_attrs env _ (named _ k)).
Qed.

End AttrMonotone.

(** C10. The attribute check is one-directional: when a definition
    constructs a device, the same definition with its [attrs] replaced by a
    mapping that has every key of the old one (and any other keys and
    values) constructs the same device with the new [attrs]. The legacy
    pass is assumed to carry [attrs] through. *)
Theorem extra_attrs_accepted (env : Env) (kwargs k : RawDevice)
    (attrs' : gmap str str) (w w' : World) (self : Device.t) :
  check_legacy_fields env kwargs = Ok k →
  check_legacy_fields env (set_kw_attrs attrs' kwargs) = Ok (set_kw_attrs attrs' k) →
  Device.init env kwargs w = (Ok self, w') →
  dom (Device.attrs self) ⊆ dom attrs' →
  Device.init env (set_kw_attrs attrs' kwargs) w
    = (Ok (Device.set_attrs attrs' self), w').
Proof.
  intros Hk Hk' Hinit Hdom.
  apply DeviceFacts.init_inv in Hinit as [Hv Hcheck].
  rewrite (AttrFacts.init_validated env _ w w' (Device.set_attrs attrs' self))
    by by apply (AttrMonotone.validated_set_attrs env kwargs k).
  rewrite AttrFacts.validate_ok; [done|].
  intros key Href Hne. simpl.
  apply elem_of_dom, Hdom, elem_of_dom.
  by apply (AttrMonotone.validate_ok_inv env self).
Qed.

Lemma extra_attrs_accepted_witness :
  Device.init Sample.env
    (set_kw_attrs (<[py "site" := py "nyc"]> (<[py "source4" := py "192.0.2.9"]> ∅))
       Sample.core_rtr)
    Sample.world
  = (Ok (Device.set_attrs
           (<[py "site" := py "nyc"]> (<[py "source4" := py "192.0.2.9"]> ∅))
           Sample.core_device),
     Sample.world).
Proof.
  apply (extra_attrs_accepted Sample.env Sample.core_rtr Sample.core_rtr).
  - reflexivity.
  - reflexivity.
  - vm_compute. reflexivity.
  - apply (bool_decide_unpack _). vm_compute. exact I.
Defined.

(** C6, the claim as worded, fails twice on the sample installation: a
    definition without [name] (and without [display_name]) raises
    [ValueError], not [ConfigError]; a definition whose name is empty after
    scrubbing constructs a device, with the empty id. *)
Lemma nameless_value_error_empty_id_accepted :
  kw_display_name (set_kw_name None Sample.core_rtr) = None
  ∧ Device.init Sample.env (set_kw_name None Sample.core_rtr) Sample.world
      = (Raise (ValueError "name is required."), Sample.world)
  ∧ Slug.scrub (py "#!") = []
  ∧ ∃ self,
      Device.init Sample.env (set_kw_name (Some (py "#!")) Sample.core_rtr) Sample.world
        = (Ok self, Sample.world)
      ∧ Device.id self = [].
Proof.
  split; [reflexivity|]. split; [vm_compute; reflexivity|].
  split; [vm_compute; reflexivity|].
  eexists. split; vm_compute; reflexivity.
Qed.

(** C6, amended: once the legacy pass has returned, construction raises
    [ValueError] ("name is required.") whenever the definition has no
    [name], whether or not [display_name] is given; a name that is empty
    after scrubbing is not refused by id generation, construction goes on
    with the empty id. *)
Theorem name_required (env : Env) (kwargs k : RawDevice) (w : World) :
  check_legacy_fields env kwargs = Ok k →
  (kw_name k = None →
   Device.init env kwargs w = (Raise (ValueError "name is required."), w))
  ∧ (∀ name, kw_name k = Some name → kw_display_name k = None →
             Slug.scrub name = [] →
     Device.validated env kwargs w = Device.super_init env [] (Device.named name k) w).
Proof.
  intros Hk. split.
  - intros Hname. unfold Device.init, Device.validated.
    apply MonadFacts.bind_Raise.
    erewrite MonadFacts.bind_Ok by (unfold lift; rewrite Hk; reflexivity).
    apply MonadFacts.bind_Raise. by apply DeviceFacts._generate_id_nameless.
  - intros name Hname Hlegacy Hscrub. unfold Device.validated.
    erewrite MonadFacts.bind_Ok by (unfold lift; rewrite Hk; reflexivity).
    erewrite MonadFacts.bind_Ok
      by (apply (DeviceFacts._generate_id_named _ name); exact Hname).
    unfold Device.after_generate_id.
    rewrite Hlegacy. simpl.
    unfold Slug.generate_id. rewrite Hscrub. reflexivity.
Qed.

Lemma name_required_witness :
  Device.init Sample.env (set_kw_name None Sample.core_rtr) Sample.world
    = (Raise (ValueError "name is required."), Sample.world)
  ∧ Device.validated Sample.env (set_kw_name (Some (py "#!")) Sample.core_rtr) Sample.world
    = Device.super_init Sample.env []
        (Device.named (py "#!") (set_kw_name (Some (py "#!")) Sample.core_rtr))
        Sample.world.
Proof.
  destruct (name_required Sample.env (set_kw_name None Sample.core_rtr)
              (set_kw_name None Sample.core_rtr) Sample.world eq_refl) as [Hnone _].
  destruct (name_required Sample.env (set_kw_name (Some (py "#!")) Sample.core_rtr)
              (set_kw_name (Some (py "#!")) Sample.core_rtr) Sample.world eq_refl)
    as [_ Hempty].
  split.
  - apply Hnone. reflexivity.
  - apply Hempty; [reflexivity | reflexivity | vm_compute; reflexivity].
Defined.

Module StructuredOutputFacts.
Import Device MonadFacts DeviceFacts.

Lemma init_structured_output (env : Env) (kwargs : RawDevice) (w w' : World) (self : t) :
  init env kwargs w = (Ok self, w') →
  ∃ k structured_output,
    check_legacy_fields env kwargs = Ok k
    ∧ validate_structured_output env (kw_structured_output k) (name self)
        (platform self) = Ok structured_output
    ∧ Device.structured_output self = Some structured_output.
Proof.
  intros H. apply init_inv in H as [H _].
  apply validated_inv in H as (k & name & Hk & Hname & H). simpl in H.
  apply super_init_inv in H
    as (r & name' & address & ssl & so & driver & _ & _ & _ & _ & Hso & _ & ->).
  exists k, so. done.
Qed.

Lemma super_init_refuses (env : Env) (_id : str) (values : RawDevice) (w w' : World)
    (r : resolved) (name : str) (address : Address) (ssl : option Ssl.t) :
  validate_device env values = Ok r →
  kw_name values = Some name →
  validate_address env (kw_address values) name = Ok address →
  validate_ssl env (kw_ssl values) name w = (Ok ssl, w') →
  kw_structured_output values = Flag true →
  r_platform r ∉ SUPPORTED_STRUCTURED_OUTPUT env →
  super_init env _id values w =
    (Raise (ConfigError
       "The 'structured_output' field is set to 'true' on device '{d}' with platform '{p}', which does not support structured output"
       [("d", KStr name); ("p", KStr (r_platform r))]), w').
Proof.
  intros Hr Hname Haddr Hssl Hflag Hunsupported. unfold super_init.
  erewrite bind_Ok by (unfold lift; rewrite Hr; reflexivity).
  erewrite bind_Ok by (unfold lift, getitem_name; rewrite Hname; reflexivity).
  erewrite bind_Ok by (unfold lift; rewrite Haddr; reflexivity).
  erewrite bind_Ok by exact Hssl.
  apply bind_Raise. unfold lift, validate_structured_output.
  rewrite Hflag. by rewrite bool_decide_eq_false_2.
Qed.

(** An error of the SSL validator, which runs first, is the error of the
    inherited constructor. *)
Lemma super_init_ssl_raise (env : Env) (_id : str) (values : RawDevice) (w w' : World)
    (r : resolved) (name : str) (address : Address) (e : error) :
  validate_device env values = Ok r →
  kw_name values = Some name →
  validate_address env (kw_address values) name = Ok address →
  validate_ssl env (kw_ssl values) name w = (Raise e, w') →
  super_init env _id values w = (Raise e, w').
Proof.
  intros Hr Hname Haddr Hssl. unfold super_init.
  erewrite bind_Ok by (unfold lift; rewrite Hr; reflexivity).
  erewrite bind_Ok by (unfold lift, getitem_name; rewrite Hname; reflexivity).
  erewrite bind_Ok by (unfold lift; rewrite Haddr; reflexivity).
  by apply bind_Raise.
Qed.

End StructuredOutputFacts.

(** C7. The validator of [structured_output]: unset, it returns whether the
    platform supports structured output; [false] stays [false]; [true]
    stays [true] on a supporting platform and raises [ConfigError] on
    another. A constructed device holds what the validator returned for the
    value given and the canonical platform. When the validators that run
    before it (the root validator, the address, SSL) have returned, an
    explicit [true] on a canonical platform without support makes the
    inherited constructor raise that [ConfigError]; when the SSL validator
    raises instead (its certificate file cannot be examined or created),
    that error is the one raised. *)
Theorem structured_output_resolved (env : Env) :
  (∀ name platform,
     Device.validate_structured_output env Unset name platform
       = Ok (bool_decide (platform ∈ SUPPORTED_STRUCTURED_OUTPUT env))
     ∧ Device.validate_structured_output env (Flag false) name platform = Ok false
     ∧ Device.validate_structured_output env (Flag true) name platform
       = if bool_decide (platform ∈ SUPPORTED_STRUCTURED_OUTPUT env) then Ok true
         else Raise (ConfigError
                "The 'structured_output' field is set to 'true' on device '{d}' with platform '{p}', which does not support structured output"
                [("d", KStr name); ("p", KStr platform)]))
  ∧ (∀ kwargs w self w',
       Device.init env kwargs w = (Ok self, w') →
       ∃ k structured_output,
         check_legacy_fields env kwargs = Ok k
         ∧ Device.validate_structured_output env (kw_structured_output k)
             (Device.name self) (Device.platform self) = Ok structured_output
         ∧ Device.structured_output self = Some structured_output)
  ∧ (∀ _id values w w' r name address ssl,
       Device.validate_device env values = Ok r →
       kw_name values = Some name →
       Device.validate_address env (kw_address values) name = Ok address →
       Device.validate_ssl env (kw_ssl values) name w = (Ok ssl, w') →
       kw_structured_output values = Flag true →
       Device.r_platform r ∉ SUPPORTED_STRUCTURED_OUTPUT env →
       Device.super_init env _id values w =
         (Raise (ConfigError
            "The 'structured_output' field is set to 'true' on device '{d}' with platform '{p}', which does not support structured output"
            [("d", KStr name); ("p", KStr (Device.r_platform r))]), w'))
  ∧ (∀ _id values w w' r name address e,
       Device.validate_device env values = Ok r →
       kw_name values = Some name →
       Device.validate_address env (kw_address values) name = Ok address →
       Device.validate_ssl env (kw_ssl values) name w = (Raise e, w') →
       Device.super_init env _id values w = (Raise e, w')).
Proof.
  split; [|split; [|split]].
  - intros name platform. unfold Device.validate_structured_output.
    by destruct (bool_decide (platform ∈ SUPPORTED_STRUCTURED_OUTPUT env)).
  - intros kwargs w self w' Hinit.
    by apply (StructuredOutputFacts.init_structured_output env kwargs w w').
  - intros _id values w w' r name address ssl.
    apply StructuredOutputFacts.super_init_refuses.
  - intros _id values w w' r name address e.
    apply StructuredOutputFacts.super_init_ssl_raise.
Qed.

Lemma structured_output_resolved_witness :
  Device.structured_output Sample.core_device = Some false
  ∧ Device.super_init Sample.env (py "core_rtr_1")
      (Device.named (py "Core RTR #1")
         (set_kw_structured_output (Flag true) Sample.core_rtr))
      Sample.world
    = (Raise (ConfigError
         "The 'structured_output' field is set to 'true' on device '{d}' with platform '{p}', which does not support structured output"
         [("d", KStr (py "Core RTR #1")); ("p", KStr (py "cisco_ios"))]), Sample.world).
Proof.
  destruct (structured_output_resolved Sample.env) as (_ & Hinit & Hrefuse & _).
  split.
  - destruct (Hinit Sample.core_rtr Sample.world Sample.core_device Sample.world)
      as (k & so & Hk & Hso & Hfield); [vm_compute; reflexivity | reflexivity].
  - eapply (Hrefuse (py "core_rtr_1")
              (Device.named (py "Core RTR #1")
                 (set_kw_structured_output (Flag true) Sample.core_rtr))
              Sample.world Sample.world
              {| Device.r_platform := py "cisco_ios";
                 Device.r_directives := Device.directives Sample.core_device |}).
    + vm_compute. reflexivity.
    + reflexivity.
    + reflexivity.
    + reflexivity.
    + reflexivity.
    + apply (bool_decide_unpack _). vm_compute. exact I.
Defined.

(** The SSL validator runs before the one of [structured_output]: where the
    default certificate file cannot be created, its [OSError] is raised and
    the unsupported [structured_output] is not reported. *)
Example ssl_error_precedes_structured_output :
  Device.super_init Sample.env (py "secure_rtr")
    (Device.named (py "Secure RTR")
       (set_kw_structured_output (Flag true) Sample2.secure_rtr))
    Sample2.no_cert_dir
  = (Raise (OSError Sample2.secure_cert),
     Effects.warned (py "Secure RTR") Sample2.no_cert_dir).
Proof. vm_compute. reflexivity. Qed.

(** C9. [export_api] of a device has the keys [id], [name] and [network]
    and no other, holding the device id, its name and the display name of
    its network; two devices that agree on these three export the same
    mapping, whatever their credential, attrs, address, proxy or other
    fields, and so do two directories whose devices agree pairwise. *)
Theorem export_api_public_fields (self : Device.t) :
  dom (Device.export_api self) = ({["id"; "name"; "network"]} : gset string)
  ∧ Device.export_api self !! "id" = Some (Device.id self)
  ∧ Device.export_api self !! "name" = Some (Device.name self)
  ∧ Device.export_api self !! "network"
      = Some (Network.display_name (Device.network self))
  ∧ (∀ other,
       Device.id other = Device.id self →
       Device.name other = Device.name self →
       Network.display_name (Device.network other)
         = Network.display_name (Device.network self) →
       Device.export_api other = Device.export_api self)
  ∧ (∀ d1 d2,
       Forall2 (λ a b, Device.id a = Device.id b
                       ∧ Device.name a = Device.name b
                       ∧ Network.display_name (Device.network a)
                         = Network.display_name (Device.network b))
               (Devices.objects d1) (Devices.objects d2) →
       Devices.export_api d1 = Devices.export_api d2).
Proof.
  unfold Device.export_api. split_and!.
  - rewrite !dom_insert_L, dom_empty_L. set_solver.
  - reflexivity.
  - reflexivity.
  - reflexivity.
  - intros other -> -> ->. reflexivity.
  - intros d1 d2 H. unfold Devices.export_api, Device.export_api.
    induction H as [|a b l1 l2 (Hid & Hname & Hnet) _ IH]; [done|].
    rewrite !fmap_cons. f_equal; [simpl; by rewrite Hid, Hname, Hnet | exact IH].
Qed.

Lemma export_api_public_fields_witness :
  Device.export_api
    (Device.set_attrs (<[py "password" := py "hunter2"]> ∅) Sample.core_device)
  = Device.export_api Sample.core_device.
Proof.
  destruct (export_api_public_fields Sample.core_device) as (_ & _ & _ & _ & H & _).
  apply H; reflexivity.
Defined.

(** ** Platform aliases *)

Module PlatformFacts.
Import Device MonadFacts DeviceFacts.

Section Alias.
Variables (env : Env) (alias canonical : str).
Hypothesis Halias : SCRAPE_HELPERS env !! alias = Some canonical.
(** The canonical name is not rewritten further. *)
Hypothesis Hcanonical :
  default canonical (SCRAPE_HELPERS env !! canonical) = canonical.

Lemma validate_device_alias (values : RawDevice) :
  kw_platform values = Some alias →
  validate_device env values
    = validate_device env (set_kw_platform canonical values).
Proof using Halias Hcanonical.
  intros Hp. unfold validate_device. simpl. rewrite Hp, Halias, Hcanonical.
  reflexivity.
Qed.

Lemma validate_device_alias_platform (values : RawDevice) (r : resolved) :
  kw_platform values = Some alias →
  validate_device env values = Ok r → r_platform r = canonical.
Proof using Halias.
  intros Hp. unfold validate_device. rewrite Hp, Halias. simpl.
  destruct (validate_platform env canonical); [|done]. simpl.
  destruct (DirectiveOptions.init _); [|done]. simpl.
  by intros [= <-].
Qed.

Lemma validate_device_alias_unsupported (values : RawDevice) :
  kw_platform values = Some alias →
  validate_platform env canonical = false →
  validate_device env values = Raise (UnsupportedDevice canonical).
Proof using Halias.
  intros Hp Hu. unfold validate_device. rewrite Hp, Halias. simpl.
  by rewrite Hu.
Qed.

Lemma super_init_alias (_id : str) (values : RawDevice) (w : World) :
  kw_platform values = Some alias →
  super_init env _id values w
    = super_init env _id (set_kw_platform canonical values) w.
Proof using Halias Hcanonical.
  intros Hp. unfold super_init.
  rewrite (validate_device_alias values Hp). reflexivity.
Qed.

Lemma validated_alias (kwargs values : RawDevice) (w : World) :
  kw_platform values = Some alias →
  check_legacy_fields env kwargs = Ok values →
  check_legacy_fields env (set_kw_platform canonical kwargs)
    = Ok (set_kw_platform canonical values) →
  validated env kwargs w = validated env (set_kw_platform canonical kwargs) w.
Proof using Halias Hcanonical.
  intros Hp Hk Hk'.
  destruct (kw_name values) as [name|] eqn:Hname.
  - rewrite (validated_named env kwargs values name w Hk Hname).
    rewrite (validated_named env _ (set_kw_platform canonical values) name w Hk' Hname).
    simpl. apply (super_init_alias _ (named _ values)). exact Hp.
  - rewrite (validated_nameless env kwargs values w Hk Hname).
    by rewrite (validated_nameless env _ (set_kw_platform canonical values) w Hk').
Qed.

Lemma init_alias (kwargs values : RawDevice) (w : World) :
  kw_platform values = Some alias →
  check_legacy_fields env kwargs = Ok values →
  check_legacy_fields env (set_kw_platform canonical kwargs)
    = Ok (set_kw_platform canonical values) →
  init env kwargs w = init env (set_kw_platform canonical kwargs) w.
Proof using Halias Hcanonical.
  intros Hp Hk Hk'. unfold init, mbind, M_bind at 1 3.
  by rewrite (validated_alias kwargs values w Hp Hk Hk').
Qed.

End Alias.

End PlatformFacts.

(** C4. For an alias of the table whose canonical name the table does not
    rewrite further, a definition declaring the alias resolves as the same
    definition declaring the canonical name: the root validator returns the
    same result for both, with the canonical name as platform when it
    succeeds and [UnsupportedDevice] of the canonical name when that one is
    not supported; the inherited constructor and, when the legacy pass
    carries the platform through, the constructor return the same for both. *)
Theorem alias_resolves_as_canonical (env : Env) (alias canonical : str)
    (values : RawDevice) :
  SCRAPE_HELPERS env !! alias = Some canonical →
  default canonical (SCRAPE_HELPERS env !! canonical) = canonical →
  kw_platform values = Some alias →
  Device.validate_device env values
    = Device.validate_device env (set_kw_platform canonical values)
  ∧ (∀ r, Device.validate_device env values = Ok r → Device.r_platform r = canonical)
  ∧ (validate_platform env canonical = false →
     Device.validate_device env values = Raise (UnsupportedDevice canonical))
  ∧ (∀ _id w,
       Device.super_init env _id values w
         = Device.super_init env _id (set_kw_platform canonical values) w)
  ∧ (∀ kwargs w,
       check_legacy_fields env kwargs = Ok values →
       check_legacy_fields env (set_kw_platform canonical kwargs)
         = Ok (set_kw_platform canonical values) →
       Device.init env kwargs w
         = Device.init env (set_kw_platform canonical kwargs) w).
Proof.
  intros Halias Hcanonical Hp. split_and!.
  - by apply (PlatformFacts.validate_device_alias env alias).
  - intros r. by apply (PlatformFacts.validate_device_alias_platform env alias).
  - by apply (PlatformFacts.validate_device_alias_unsupported env alias).
  - intros _id w. by apply (PlatformFacts.super_init_alias env alias).
  - intros kwargs w. by apply (PlatformFacts.init_alias env alias).
Qed.

(** The rewrite is applied once: were the table to rewrite a canonical name
    again, the alias and the canonical name would resolve differently. *)
Example alias_chain_differs :
  Device.validate_device Sample.chained_env Sample.core_rtr
    = Ok {| Device.r_platform := py "cisco_ios";
            Device.r_directives := [Sample.show_bgp; Sample.ios_bgp_route; Sample.ios_ping] |}
  ∧ Device.validate_device Sample.chained_env
      (set_kw_platform (py "cisco_ios") Sample.core_rtr)
    = Ok {| Device.r_platform := py "frr";
            Device.r_directives := [Sample.show_bgp] |}.
Proof. split; vm_compute; reflexivity. Qed.

Lemma alias_resolves_as_canonical_witness :
  Device.init Sample.env Sample.core_rtr Sample.world
  = Device.init Sample.env (set_kw_platform (py "cisco_ios") Sample.core_rtr) Sample.world.
Proof.
  destruct (alias_resolves_as_canonical Sample.env (py "ios") (py "cisco_ios")
              Sample.core_rtr) as (_ & _ & _ & _ & H).
  - vm_compute. reflexivity.
  - vm_compute. reflexivity.
  - reflexivity.
  - apply H; reflexivity.
Defined.

(** ** Directive resolution *)

Module ResolveFacts.
Import Device DirectiveSpec.

Lemma foldl_insert_lookup (items : list (str * OptionValue))
    (m : gmap str OptionValue) (key : str) :
  foldl (λ m kv, <[kv.1 := kv.2]> m) m items !! key
  = match last_value key items with
    | Some v => Some v
    | None => m !! key
    end.
Proof.
  revert m. induction items as [|[k v] items IH]; intros m; [done|].
  simpl. rewrite IH. destruct (last_value key items); [done|].
  destruct (decide (k = key)) as [->|Hne].
  - by rewrite lookup_insert_eq.
  - by rewrite lookup_insert_ne.
Qed.

Lemma merged_options_lookup (statements : list Statement) (key : str) :
  merged_options statements !! key = last_value key (option_entries statements).
Proof.
  unfold merged_options. rewrite foldl_insert_lookup.
  fold (option_entries statements).
  by destruct (last_value key (option_entries statements)).
Qed.

Lemma options_init (statements : list Statement) :
  DirectiveOptions.init (merged_options statements)
  = match builtins_option statements with
    | Some option => Ok {| DirectiveOptions.builtins := option |}
    | None => Raise (ValidationError "DirectiveOptions" "builtins")
    end.
Proof.
  unfold DirectiveOptions.init, builtins_option.
  rewrite merged_options_lookup.
  by destruct (last_value _ _) as [[]|].
Qed.

Lemma elem_of_string_ids (statements : list Statement) (i : str) :
  i ∈ string_ids statements
  ↔ SStr i ∈ statements ∧ startswith i (py "__") = false.
Proof.
  unfold string_ids. rewrite list_elem_of_bind. split.
  - intros (statement & Hi & Hs). destruct statement as [s| |].
    + destruct (startswith s (py "__")) eqn:Hstart.
      * by apply elem_of_nil in Hi.
      * apply list_elem_of_singleton in Hi as ->. done.
    + by apply elem_of_nil in Hi.
    + by apply elem_of_nil in Hi.
  - intros [Hs Hstart]. exists (SStr i). rewrite Hstart.
    split; [by apply list_elem_of_singleton | done].
Qed.

Lemma filter_by_ids_explicit (catalog : list Directive.t) (statements : list Statement) :
  Directives.filter_by_ids catalog (string_ids statements)
  = explicit_directives catalog statements.
Proof.
  unfold Directives.filter_by_ids, explicit_directives.
  apply list_filter_iff. intros d. apply elem_of_string_ids.
Qed.

Lemma unique_from_NoDup (seen : gset str) (ds : list Directive.t) :
  NoDup (Directive.id <$> ds) →
  (∀ d, d ∈ ds → Directive.id d ∉ seen) →
  Directives.unique_from seen ds = ds.
Proof.
  revert seen. induction ds as [|d ds IH]; intros seen Hnd Hseen; [done|].
  simpl. apply NoDup_cons in Hnd as [Hd Hnd].
  rewrite decide_False by (apply Hseen; by left).
  f_equal. apply IH; [done|].
  intros d' Hd' [Heq%elem_of_singleton|Hin]%elem_of_union.
  - apply Hd. rewrite <- Heq. by apply list_elem_of_fmap_2.
  - apply (Hseen d'); [by right | done].
Qed.

Lemma NoDup_fmap_filter {A B} (f : A → B) (P : A → Prop) `{!∀ x, Decision (P x)}
    (l : list A) :
  NoDup (f <$> l) → NoDup (f <$> filter P l).
Proof.
  induction l as [|x l IH]; [done|].
  rewrite fmap_cons. intros [Hx Hnd]%NoDup_cons.
  rewrite filter_cons. destruct (decide (P x)); [|by apply IH].
  rewrite fmap_cons. apply NoDup_cons. split; [|by apply IH].
  intros (y & Hy & Hin%list_elem_of_filter)%list_elem_of_fmap.
  apply Hx. rewrite Hy. apply list_elem_of_fmap_2. tauto.
Qed.

Lemma unique_explicit (catalog : list Directive.t) (statements : list Statement) :
  NoDup (Directive.id <$> catalog) →
  Directives.unique (explicit_directives catalog statements)
  = explicit_directives catalog statements.
Proof.
  intros Hnd. apply unique_from_NoDup; [|set_solver].
  by apply NoDup_fmap_filter.
Qed.

(** The directives of the root validator are the ones the specification
    describes. *)
Lemma resolved_directives (catalog : list Directive.t) (platform : str)
    (option : DirectiveOptions.builtins_t) (statements : list Statement) :
  NoDup (Directive.id <$> catalog) →
  (let device_directives := Directives.filter_by_ids catalog (string_ids statements) in
   let builtins := Directives.device_builtins catalog platform in
   match option with
   | DirectiveOptions.Bool true => Directives.add device_directives builtins
   | DirectiveOptions.List ids =>
       Directives.add device_directives (Directives.matching builtins ids)
   | DirectiveOptions.Bool false => device_directives
   end)
  = resolve catalog platform option statements.
Proof.
  intros Hnd. simpl. rewrite filter_by_ids_explicit. unfold resolve.
  destruct option as [[]|ids]; simpl; try reflexivity.
  by rewrite app_nil_r, unique_explicit.
Qed.

Lemma validate_device_resolved (env : Env) (values : RawDevice) (platform : str)
    (option : DirectiveOptions.builtins_t) :
  NoDup (Directive.id <$> state_directives env) →
  kw_platform values = Some platform →
  validate_platform env (default platform (SCRAPE_HELPERS env !! platform)) = true →
  builtins_option (default [] (kw_directives values)) = Some option →
  validate_device env values
  = Ok {| r_platform := default platform (SCRAPE_HELPERS env !! platform);
          r_directives :=
            resolve (state_directives env)
              (default platform (SCRAPE_HELPERS env !! platform))
              option (default [] (kw_directives values)) |}.
Proof.
  intros Hnd Hp Hsup Hopt. unfold validate_device.
  rewrite Hp, Hsup. simpl. rewrite options_init, Hopt. simpl.
  f_equal. f_equal. by apply resolved_directives.
Qed.

Lemma validate_device_inv (env : Env) (values : RawDevice) (r : resolved) :
  validate_device env values = Ok r →
  ∃ platform option,
    kw_platform values = Some platform
    ∧ r_platform r = default platform (SCRAPE_HELPERS env !! platform)
    ∧ validate_platform env (r_platform r) = true
    ∧ builtins_option (default [] (kw_directives values)) = Some option.
Proof.
  unfold validate_device. destruct (kw_platform values) as [platform|].
  2:{ by destruct (getitem_name values). }
  destruct (validate_platform env _) eqn:Hsup; [|done]. simpl.
  rewrite options_init.
  destruct (builtins_option _) as [option|] eqn:Hopt; [|done]. simpl.
  intros [= <-]. by exists platform, option.
Qed.

End ResolveFacts.

(** C2. With a catalog whose ids are distinct, the root validator of a
    definition with a supported platform and a well-typed [builtins] option
    resolves [directives] to: the catalog's directives named by the string
    entries that do not begin with [__], then all built-ins of the canonical
    platform when the merged option is [true] (the default), those whose id
    is listed when it is a list, none when it is [false]; duplicates by id
    removed keeping the first occurrence. A constructed device holds that
    list. *)
Theorem directives_resolved (env : Env) :
  NoDup (Directive.id <$> state_directives env) →
  (∀ values platform option,
     kw_platform values = Some platform →
     validate_platform env (default platform (SCRAPE_HELPERS env !! platform)) = true →
     DirectiveSpec.builtins_option (default [] (kw_directives values)) = Some option →
     Device.validate_device env values
     = Ok {| Device.r_platform := default platform (SCRAPE_HELPERS env !! platform);
             Device.r_directives :=
               DirectiveSpec.resolve (state_directives env)
                 (default platform (SCRAPE_HELPERS env !! platform))
                 option (default [] (kw_directives values)) |})
  ∧ (∀ kwargs w self w',
       Device.init env kwargs w = (Ok self, w') →
       ∃ k option,
         check_legacy_fields env kwargs = Ok k
         ∧ DirectiveSpec.builtins_option (default [] (kw_directives k)) = Some option
         ∧ Device.directives self
           = DirectiveSpec.resolve (state_directives env) (Device.platform self)
               option (default [] (kw_directives k))).
Proof.
  intros Hnd. split.
  - intros values platform option. by apply ResolveFacts.validate_device_resolved.
  - intros kwargs w self w' Hinit.
    apply DeviceFacts.init_inv in Hinit as [Hv _].
    apply DeviceFacts.validated_inv in Hv as (k & name & Hk & Hname & Hsuper).
    simpl in Hsuper. apply DeviceFacts.super_init_inv in Hsuper
      as (r & ? & ? & ? & ? & ? & Hr & _ & _ & _ & _ & _ & ->).
    destruct (ResolveFacts.validate_device_inv env _ r Hr)
      as (platform & option & Hp & Hcanon & Hsup & Hopt).
    exists k, option. split; [done|]. split; [done|]. simpl in *.
    rewrite Hcanon in Hsup.
    rewrite (ResolveFacts.validate_device_resolved env
               (Device.named (default name (kw_display_name k)) k)
               platform option Hnd Hp Hsup Hopt) in Hr.
    by injection Hr as <-.
Qed.

Lemma directives_resolved_witness :
  Device.validate_device Sample.env Sample.core_rtr
  = Ok {| Device.r_platform := py "cisco_ios";
          Device.r_directives :=
            DirectiveSpec.resolve (state_directives Sample.env) (py "cisco_ios")
              (DirectiveOptions.Bool true) [SStr (py "show-bgp")] |}
  ∧ Device.directives Sample.core_device
    = [Sample.show_bgp; Sample.ios_bgp_route; Sample.ios_ping].
Proof.
  destruct (directives_resolved Sample.env) as [Hvalidate Hinit].
  - apply (bool_decide_unpack _). vm_compute. exact I.
  - split; [|reflexivity].
    apply (Hvalidate Sample.core_rtr (py "ios") (DirectiveOptions.Bool true));
      vm_compute; reflexivity.
Defined.

(** The three settings of the option on the sample installation. *)
Example builtins_listed :
  Device.validate_device Sample.env
      (set_kw_directives
         [SStr (py "show-bgp");
          SDict [(py "builtins", OList [py "__hyperglass_cisco_ios_ping__"])]]
         Sample.core_rtr)
  = Ok {| Device.r_platform := py "cisco_ios";
          Device.r_directives := [Sample.show_bgp; Sample.ios_ping] |}.
Proof. vm_compute. reflexivity. Qed.

Example builtins_disabled :
  Device.validate_device Sample.env
    (set_kw_directives
       [SDict [(py "builtins", OBool false)]; SStr (py "show-bgp");
        SStr (py "__hyperglass_cisco_ios_ping__"); SDict [(py "colour", OOther)]]
       Sample.core_rtr)
  = Ok {| Device.r_platform := py "cisco_ios";
          Device.r_directives := [Sample.show_bgp] |}.
Proof. vm_compute. reflexivity. Qed.

(** ** The directory *)

Module SetFacts.

(** A set of objects hashed by id, filled from a list, holds for each id
    the first object of the list with that id. *)
Lemma foldl_set_add_lookup {A} (key : A → str) (xs : list A) (s : gmap str A) (k : str) :
  foldl (λ s x, set_add (key x) x s) s xs !! k
  = match s !! k with
    | Some x => Some x
    | None => snd <$> list_find (λ x, key x = k) xs
    end.
Proof.
  revert s. induction xs as [|x xs IH]; intros s.
  - simpl. by destruct (s !! k).
  - cbn [foldl]. rewrite IH. unfold set_add. cbn [list_find].
    destruct (s !! key x) eqn:Hx.
    + destruct (s !! k) eqn:Hk; [done|].
      rewrite decide_False by congruence.
      by destruct (list_find _ xs) as [[]|].
    + destruct (decide (key x = k)) as [<-|Hne].
      * by rewrite lookup_insert_eq, Hx.
      * rewrite lookup_insert_ne by done.
        destruct (s !! k); [done|]. by destruct (list_find _ xs) as [[]|].
Qed.

Lemma elem_of_set_members {A} (s : gmap str A) (x : A) :
  x ∈ set_members s ↔ ∃ k, s !! k = Some x.
Proof.
  unfold set_members. rewrite list_elem_of_fmap. split.
  - intros ([k y] & -> & Hin). exists k. by apply elem_of_map_to_list.
  - intros (k & Hk). exists (k, x). split; [done|]. by apply elem_of_map_to_list.
Qed.

Lemma elem_of_filled_set {A} (key : A → str) (xs : list A) (x : A) :
  x ∈ set_members (foldl (λ s x, set_add (key x) x s) ∅ xs)
  ↔ ∃ i, xs !! i = Some x
         ∧ ∀ j y, (j < i)%nat → xs !! j = Some y → key y ≠ key x.
Proof.
  rewrite elem_of_set_members. split.
  - intros (k & Hk). rewrite foldl_set_add_lookup, lookup_empty in Hk.
    destruct (list_find _ xs) as [[i y]|] eqn:Hfind; [|done].
    injection Hk as ->.
    apply list_find_Some in Hfind as (Hi & <- & Hfirst).
    exists i. split; [done|]. intros j y Hj Hy. by apply (Hfirst j).
  - intros (i & Hi & Hfirst). exists (key x).
    rewrite foldl_set_add_lookup, lookup_empty.
    assert (list_find (λ y, key y = key x) xs = Some (i, x)) as ->; [|done].
    apply list_find_Some. split; [done|]. split; [done|].
    intros j y Hy Hj. by apply (Hfirst j).
Qed.

Lemma filled_set_keys {A} (key : A → str) (xs : list A) :
  key <$> set_members (foldl (λ s x, set_add (key x) x s) ∅ xs)
  = (map_to_list (foldl (λ s x, set_add (key x) x s) ∅ xs)).*1.
Proof.
  unfold set_members. rewrite <- list_fmap_compose.
  apply Forall_fmap_ext, Forall_forall. intros [k x] Hin. simpl.
  apply elem_of_map_to_list in Hin.
  rewrite foldl_set_add_lookup, lookup_empty in Hin.
  destruct (list_find _ xs) as [[i y]|] eqn:Hfind; [|done].
  injection Hin as ->. by apply list_find_Some in Hfind as (_ & ? & _).
Qed.

Lemma NoDup_filled_set_keys {A} (key : A → str) (xs : list A) :
  NoDup (key <$> set_members (foldl (λ s x, set_add (key x) x s) ∅ xs)).
Proof. rewrite filled_set_keys. apply NoDup_fst_map_to_list. Qed.

End SetFacts.

Module DevicesFacts.
Import Devices MonadFacts SetFacts.

(** The loop constructs the devices in turn and adds each to the sets. *)
Lemma ingest_constructed (env : Env) (input_params : list RawDevice)
    (objects : gmap str Device.t) (hostnames ids : gset str)
    (w w' : World) (devices : list Device.t) :
  construct_all env input_params w = (Ok devices, w') →
  ingest env input_params objects hostnames ids w
  = (Ok (foldl (λ s device, set_add (Device.id device) device s) objects devices,
         list_to_set (Device.name <$> devices) ∪ hostnames,
         list_to_set (Device.id <$> devices) ∪ ids), w').
Proof.
  revert objects hostnames ids w devices.
  induction input_params as [|definition input_params IH];
    intros objects hostnames ids w devices H.
  - apply ret_Ok_inv in H as [<- ->]. simpl.
    unfold mret, M_ret. by rewrite !(left_id_L ∅ (∪)).
  - cbn [construct_all] in H.
    apply bind_Ok_inv in H as (device & w1 & Hdevice & H).
    apply bind_Ok_inv in H as (rest & w2 & Hrest & H).
    apply ret_Ok_inv in H as [<- ->].
    cbn [ingest]. rewrite (bind_Ok _ _ _ _ _ Hdevice).
    rewrite (IH _ _ _ _ _ Hrest). rewrite !fmap_cons. cbn [foldl list_to_set].
    by rewrite !(assoc_L (∪)), !(comm_L (∪) (list_to_set _) {[_]}).
Qed.

Lemma init_constructed (env : Env) (input_params : list RawDevice)
    (w w' : World) (devices : list Device.t) :
  construct_all env input_params w = (Ok devices, w') →
  init env input_params w
  = (Ok {| ids := elements (list_to_set (Device.id <$> devices) ∪ ∅ : gset str);
           hostnames := elements (list_to_set (Device.name <$> devices) ∪ ∅ : gset str);
           objects :=
             sorted_by_name
               (set_members
                  (foldl (λ s device, set_add (Device.id device) device s) ∅ devices)) |},
     w').
Proof.
  intros H. unfold init.
  by rewrite (bind_Ok _ _ _ _ _ (ingest_constructed env _ ∅ ∅ ∅ _ _ _ H)).
Qed.

Lemma sorted_by_name_Permutation (objects : list Device.t) :
  sorted_by_name objects ≡ₚ objects.
Proof. apply merge_sort_Permutation. Qed.

End DevicesFacts.

(** C3, the claim as worded, fails on the sample installation: of two
    definitions with the same derived id, the directory holds the device of
    the first, not of the last. *)
Lemma last_definition_dropped :
  Device.init Sample.env Sample.core_rtr Sample.world
    = (Ok Sample.core_device, Sample.world)
  ∧ Device.init Sample.env Sample.core_rtr_again Sample.world
    = (Ok Sample.core_device_again, Sample.world)
  ∧ Device.id Sample.core_device_again = Device.id Sample.core_device
  ∧ Sample.core_device_again ≠ Sample.core_device
  ∧ ∃ directory,
      Devices.init Sample.env [Sample.core_rtr; Sample.core_rtr_again] Sample.world
        = (Ok directory, Sample.world)
      ∧ Devices.objects directory = [Sample.core_device].
Proof.
  split_and!; try (vm_compute; reflexivity).
  - intros H. apply (f_equal Device.name) in H. vm_compute in H. discriminate.
  - eexists. split; vm_compute; reflexivity.
Qed.

(** C3, amended: when every definition constructs, the directory is built
    without error; its devices have pairwise distinct ids, and a device is
    in it exactly when it is the first constructed device with its id
    (first write wins); its ids and names are those of all constructed
    devices. *)
Theorem first_definition_retained (env : Env) (input_params : list RawDevice)
    (w w' : World) (devices : list Device.t) :
  Devices.construct_all env input_params w = (Ok devices, w') →
  ∃ directory,
    Devices.init env input_params w = (Ok directory, w')
    ∧ NoDup (Device.id <$> Devices.objects directory)
    ∧ (∀ device,
         device ∈ Devices.objects directory
         ↔ ∃ i, devices !! i = Some device
                ∧ ∀ j other, (j < i)%nat → devices !! j = Some other →
                             Device.id other ≠ Device.id device)
    ∧ (∀ i, i ∈ Devices.ids directory ↔ ∃ device, device ∈ devices ∧ Device.id device = i)
    ∧ (∀ n, n ∈ Devices.hostnames directory
            ↔ ∃ device, device ∈ devices ∧ Device.name device = n).
Proof.
  intros H. eexists. split; [by apply DevicesFacts.init_constructed|].
  simpl. split_and!.
  - rewrite DevicesFacts.sorted_by_name_Permutation.
    apply SetFacts.NoDup_filled_set_keys.
  - intros device. rewrite DevicesFacts.sorted_by_name_Permutation.
    apply SetFacts.elem_of_filled_set.
  - intros i. rewrite elem_of_elements, elem_of_union, elem_of_list_to_set,
      list_elem_of_fmap, elem_of_empty.
    split; [intros [(d & -> & Hd)|[]]; by exists d | intros (d & Hd & <-); left; by exists d].
  - intros n. rewrite elem_of_elements, elem_of_union, elem_of_list_to_set,
      list_elem_of_fmap, elem_of_empty.
    split; [intros [(d & -> & Hd)|[]]; by exists d | intros (d & Hd & <-); left; by exists d].
Qed.

Lemma first_definition_retained_witness :
  ∃ directory,
    Devices.init Sample.env [Sample.core_rtr; Sample.core_rtr_again] Sample.world
      = (Ok directory, Sample.world)
    ∧ Sample.core_device ∈ Devices.objects directory
    ∧ Sample.core_device_again ∉ Devices.objects directory.
Proof.
  destruct (first_definition_retained Sample.env
              [Sample.core_rtr; Sample.core_rtr_again] Sample.world Sample.world
              [Sample.core_device; Sample.core_device_again])
    as (directory & Hinit & _ & Hmem & _); [vm_compute; reflexivity|].
  exists directory. split; [exact Hinit|]. split.
  - apply Hmem. exists 0%nat. split; [reflexivity|]. intros j other Hj. lia.
  - intros (i & Hi & Hfirst)%Hmem.
    destruct i as [|[|i]]; [| |done].
    + apply (f_equal (fmap (M := option) Device.name)) in Hi.
      vm_compute in Hi. discriminate.
    + by apply (Hfirst 0%nat Sample.core_device); [lia | |].
Defined.

(** ** Plugins *)

Module PluginFacts.
Import Devices SetFacts.

Lemma add_plugin_ids (i : str) (result : gmap str (gset str)) (plugin path : str) :
  ids_at (add_plugin i result plugin) path
  = if decide (plugin = path) then {[i]} ∪ ids_at result path else ids_at result path.
Proof.
  unfold ids_at, add_plugin. destruct (decide (plugin = path)) as [->|Hne].
  - rewrite lookup_alter_eq. destruct (result !! path) eqn:Hp.
    + by rewrite Hp.
    + by rewrite lookup_insert_eq.
  - rewrite lookup_alter_ne by done.
    destruct (result !! plugin); [done|]. by rewrite lookup_insert_ne.
Qed.

Lemma add_plugin_is_Some (i : str) (result : gmap str (gset str)) (plugin path : str) :
  is_Some (add_plugin i result plugin !! path)
  ↔ plugin = path ∨ is_Some (result !! path).
Proof.
  unfold add_plugin. destruct (decide (plugin = path)) as [->|Hne].
  - rewrite lookup_alter_eq. split; [by left|]. intros _.
    destruct (result !! path) eqn:Hp.
    + rewrite Hp. by eexists.
    + rewrite lookup_insert_eq. by eexists.
  - rewrite lookup_alter_ne by done.
    destruct (result !! plugin); [|rewrite lookup_insert_ne by done];
      (split; [by right | by intros [?|?]]).
Qed.

Lemma inner_ids (i : str) (plugins : list str) (result : gmap str (gset str))
    (path j : str) :
  j ∈ ids_at (foldl (add_plugin i) result plugins) path
  ↔ j ∈ ids_at result path ∨ (j = i ∧ path ∈ plugins).
Proof.
  revert result. induction plugins as [|p plugins IH]; intros result.
  - simpl. rewrite elem_of_nil. tauto.
  - cbn [foldl]. rewrite IH, add_plugin_ids, elem_of_cons.
    destruct (decide (p = path)) as [->|Hne].
    + rewrite elem_of_union, elem_of_singleton. tauto.
    + split; [tauto|]. intros [?|[? [?|?]]]; [tauto|congruence|tauto].
Qed.

Lemma inner_is_Some (i : str) (plugins : list str) (result : gmap str (gset str))
    (path : str) :
  is_Some (foldl (add_plugin i) result plugins !! path)
  ↔ is_Some (result !! path) ∨ path ∈ plugins.
Proof.
  revert result. induction plugins as [|p plugins IH]; intros result.
  - simpl. rewrite elem_of_nil. tauto.
  - cbn [foldl]. rewrite IH, add_plugin_is_Some, elem_of_cons.
    split; [intros [[->|?]|?]; tauto | intros [?|[->|?]]; tauto].
Qed.

Section Outer.
Variable paths : Directive.t → list str.

Lemma outer_ids (directives : list Directive.t) (result : gmap str (gset str))
    (path j : str) :
  j ∈ ids_at (foldl (file paths) result directives) path
  ↔ j ∈ ids_at result path
    ∨ ∃ d, d ∈ directives ∧ Directive.id d = j ∧ path ∈ paths d.
Proof.
  revert result. induction directives as [|d directives IH]; intros result.
  - simpl. split; [tauto|]. intros [?|(d & Hd & _)]; [done|].
    by apply elem_of_nil in Hd.
  - cbn [foldl]. rewrite IH. unfold file. rewrite inner_ids. split.
    + intros [[?|[-> ?]]|(d' & ? & ? & ?)]; [tauto| |].
      * right. exists d. split; [by left | done].
      * right. exists d'. split; [by right | done].
    + intros [?|(d' & [->|?]%elem_of_cons & ? & ?)]; [tauto| |].
      * left. right. done.
      * right. by exists d'.
Qed.

Lemma outer_is_Some (directives : list Directive.t) (result : gmap str (gset str))
    (path : str) :
  is_Some (foldl (file paths) result directives !! path)
  ↔ is_Some (result !! path) ∨ ∃ d, d ∈ directives ∧ path ∈ paths d.
Proof.
  revert result. induction directives as [|d directives IH]; intros result.
  - simpl. split; [tauto|]. intros [?|(d & Hd & _)]; [done|].
    by apply elem_of_nil in Hd.
  - cbn [foldl]. rewrite IH. unfold file. rewrite inner_is_Some. split.
    + intros [[?|?]|(d' & ? & ?)]; [tauto| |].
      * right. exists d. split; [by left | done].
      * right. exists d'. split; [by right | done].
    + intros [?|(d' & [->|?]%elem_of_cons & ?)]; [tauto| |].
      * left. by right.
      * right. by exists d'.
Qed.

End Outer.

(** With ids that name one directive each, the set holds the directives
    in use. *)
Lemma elem_of_directive_set (self : t) (d : Directive.t) :
  (∀ d1 d2, d1 ∈ directives_in_use self → d2 ∈ directives_in_use self →
            Directive.id d1 = Directive.id d2 → d1 = d2) →
  d ∈ set_members (directive_set self) ↔ d ∈ directives_in_use self.
Proof.
  intros Huniq. unfold directive_set. rewrite elem_of_filled_set. split.
  - intros (i & Hi & _). by apply list_elem_of_lookup_2 in Hi.
  - intros Hd.
    destruct (list_find_elem_of (λ x, Directive.id x = Directive.id d)
                (directives_in_use self) d Hd eq_refl) as [[i y] Hfind].
    apply list_find_Some in Hfind as (Hi & Hid & Hfirst).
    assert (y = d) as ->.
    { apply Huniq; [by apply list_elem_of_lookup_2 in Hi | done | done]. }
    exists i. split; [done|]. intros j other Hj Hother. by apply (Hfirst j).
Qed.

Lemma elem_of_paths (env : Env) (directives : list Directive.t) (d : Directive.t)
    (path : str) :
  d ∈ directives →
  path ∈ Path env <$> filter (λ p, p ∈ plugin_names directives) (Directive.plugins d)
  ↔ ∃ p, p ∈ Directive.plugins d ∧ Path env p = path.
Proof.
  intros Hd. rewrite list_elem_of_fmap. split.
  - intros (p & -> & Hp%list_elem_of_filter). exists p. tauto.
  - intros (p & Hp & <-). exists p. split; [done|].
    apply list_elem_of_filter. split; [|done].
    unfold plugin_names. apply elem_of_list_to_set, list_elem_of_bind.
    by exists d.
Qed.

End PluginFacts.

(** C8. In a directory whose directives in use are named one each by their
    ids, [directive_plugins] has an entry for a plugin path exactly when a
    directive in use refers to a plugin with that path, and the entry lists,
    without repetition, exactly the ids of the directives in use that do. *)
Theorem directive_plugins_index (env : Env) (self : Devices.t) (path : str) :
  (∀ d1 d2,
     d1 ∈ Devices.directives_in_use self → d2 ∈ Devices.directives_in_use self →
     Directive.id d1 = Directive.id d2 → d1 = d2) →
  match Devices.directive_plugins env self !! path with
  | Some ids =>
      NoDup ids
      ∧ (∃ d p, d ∈ Devices.directives_in_use self
                ∧ p ∈ Directive.plugins d ∧ Path env p = path)
      ∧ ∀ i, i ∈ ids
             ↔ ∃ d p, d ∈ Devices.directives_in_use self
                      ∧ p ∈ Directive.plugins d ∧ Path env p = path
                      ∧ Directive.id d = i
  | None =>
      ∀ d p, d ∈ Devices.directives_in_use self → p ∈ Directive.plugins d →
             Path env p ≠ path
  end.
Proof.
  intros Huniq. unfold Devices.directive_plugins.
  set (directives := set_members (Devices.directive_set self)).
  set (paths := λ directive : Directive.t,
         Path env <$> filter (λ p, p ∈ Devices.plugin_names directives)
                        (Directive.plugins directive)).
  change (foldl _ ∅ directives) with (foldl (Devices.file paths) ∅ directives).
  assert (∀ d, d ∈ directives ↔ d ∈ Devices.directives_in_use self) as Hused
    by (intros d; by apply PluginFacts.elem_of_directive_set).
  assert (∀ d, d ∈ directives →
            path ∈ paths d ↔ ∃ p, p ∈ Directive.plugins d ∧ Path env p = path) as Hpaths
    by (intros d Hd; by apply PluginFacts.elem_of_paths).
  pose proof (PluginFacts.outer_is_Some paths directives ∅ path) as Hsome.
  pose proof (PluginFacts.outer_ids paths directives ∅ path) as Hids.
  rewrite lookup_fmap.
  destruct (foldl (Devices.file paths) ∅ directives !! path) as [ids|] eqn:Hlookup; simpl.
  - split; [apply NoDup_elements|]. split.
    + destruct (proj1 Hsome) as [Hempty|(d & Hd & Hp)]; [by eexists| |].
      * rewrite lookup_empty in Hempty. by destruct Hempty.
      * apply Hpaths in Hp as (p & Hp & Hpath); [|done].
        exists d, p. split; [by apply Hused | done].
    + intros i. rewrite elem_of_elements.
      unfold Devices.ids_at in Hids. rewrite Hlookup, lookup_empty in Hids.
      simpl in Hids. rewrite Hids, elem_of_empty. split.
      * intros [[]|(d & Hd & Hid & Hp)].
        apply Hpaths in Hp as (p & Hp & Hpath); [|done].
        exists d, p. split; [by apply Hused | done].
      * intros (d & p & Hd & Hp & Hpath & Hid). right.
        apply Hused in Hd. exists d. split; [done|]. split; [done|].
        apply Hpaths; [done|]. by exists p.
  - intros d p Hd Hp Hpath. apply Hused in Hd.
    assert (is_Some (None : option (gset str))) as [? ?]; [|done].
    apply Hsome. right. exists d. split; [done|].
    apply Hpaths; [done|]. by exists p.
Qed.

Lemma directive_plugins_index_witness :
  ∃ ids,
    Devices.directive_plugins Sample.env Sample.directory_ab !! py "p2" = Some ids
    ∧ NoDup ids
    ∧ py "A" ∈ ids ∧ py "B" ∈ ids
    ∧ ∀ i, i ∈ ids → i = py "A" ∨ i = py "B".
Proof.
  pose proof (directive_plugins_index Sample.env Sample.directory_ab (py "p2")) as H.
  destruct (Devices.directive_plugins Sample.env Sample.directory_ab !! py "p2")
    as [ids|] eqn:Hlookup; [|vm_compute in Hlookup; discriminate].
  exists ids. split; [reflexivity|].
  destruct H as (Hnd & _ & Hids).
  - intros d1 d2 Hd1 Hd2.
    vm_compute in Hd1, Hd2.
    apply list_elem_of_In in Hd1 as [<-|[<-|[<-|[]]]];
      apply list_elem_of_In in Hd2 as [<-|[<-|[<-|[]]]];
      intros Hid; try reflexivity; vm_compute in Hid; discriminate.
  - split; [exact Hnd|]. split; [|split].
    + apply Hids. exists Sample.directive_a, (py "p2").
      split_and!; try reflexivity; vm_compute; repeat constructor.
    + apply Hids. exists Sample.directive_b, (py "p2").
      split_and!; try reflexivity; vm_compute; repeat constructor.
    + intros i (d & p & Hd & _ & _ & <-)%Hids.
      vm_compute in Hd.
      apply list_elem_of_In in Hd as [<-|[<-|[<-|[]]]]; auto.
Defined.

(** The example of the specification: [A] with plugins [p1], [p2] and [B]
    with plugin [p2]. *)
Example directive_plugins_ab :
  (list_to_set <$> Devices.directive_plugins Sample.env Sample.directory_ab
     : gmap str (gset str))
  = <[py "p1" := {[py "A"]}]> (<[py "p2" := {[py "A"; py "B"]}]> ∅).
Proof. vm_compute. reflexivity. Qed.

(** * Further properties *)

(** ** Identifiers *)

Module SlugMore.
Import Str Slug StrFacts SlugFacts.

Lemma split_from_nonempty (w s : str) :
  Forall (λ word, word ≠ []) (split_from w s).
Proof.
  revert w. induction s as [|c s IH]; intros w; simpl.
  - destruct w; by repeat constructor.
  - destruct (is_space c); [|apply IH].
    destruct w; [apply IH | constructor; [done | apply IH]].
Qed.

Lemma join_nil_iff (sep : str) (ws : list str) :
  Forall (λ word, word ≠ []) ws → join sep ws = [] ↔ ws = [].
Proof.
  intros Hws. split; [|by intros ->].
  destruct Hws as [|w ws Hw _]; [done|].
  simpl. destruct ws; destruct w; done.
Qed.

Lemma upper_no_space (c : N) :
  is_upper c = true → is_space c = false ∧ is_space (c + 32) = false.
Proof.
  intros H. rewrite <- !not_true_iff_false. revert H.
  unfold is_upper, is_space. bool_to_prop. lia.
Qed.

Lemma is_space_lower_char (c : N) : is_space (lower_char c) = is_space c.
Proof.
  unfold lower_char. destruct (is_upper c) eqn:Hu; [|done].
  destruct (upper_no_space c Hu) as [-> ->]. done.
Qed.

Lemma kept_lower_char (c : N) : kept (lower_char c) = kept c.
Proof.
  unfold lower_char. destruct (is_upper c) eqn:Hu; [|done].
  unfold kept. rewrite Hu. simpl.
  assert (is_lower (c + 32) = true) as ->; [|by rewrite orb_true_r].
  revert Hu. unfold is_upper, is_lower. bool_to_prop. lia.
Qed.

Lemma lower_char_idemp (c : N) : lower_char (lower_char c) = lower_char c.
Proof.
  unfold lower_char. destruct (is_upper c) eqn:Hu; [|by rewrite Hu].
  assert (is_upper (c + 32) = false) as ->; [|done].
  rewrite <- not_true_iff_false. revert Hu. unfold is_upper. bool_to_prop. lia.
Qed.

Lemma scrub_lower (name : str) : scrub (lower name) = lower (scrub name).
Proof.
  unfold scrub, lower. induction name as [|c name IH]; [done|].
  rewrite fmap_cons, !filter_cons, kept_lower_char.
  destruct (decide (kept c = true)); [|done].
  by rewrite fmap_cons, IH.
Qed.

Lemma split_from_lower (w s : str) :
  split_from (lower w) (lower s) = lower <$> split_from w s.
Proof.
  revert w. induction s as [|c s IH]; intros w.
  - simpl. by destruct w.
  - unfold lower at 2. rewrite fmap_cons. fold (lower s). cbn [split_from].
    rewrite is_space_lower_char. destruct (is_space c).
    + destruct w as [|x w]; [apply (IH [])|].
      unfold lower at 1. rewrite fmap_cons. fold (lower w).
      rewrite fmap_cons. f_equal. apply (IH []).
    + rewrite <- IH. f_equal. unfold lower. by rewrite fmap_app.
Qed.

Lemma join_lower (sep : str) (ws : list str) :
  join (lower sep) (lower <$> ws) = lower (join sep ws).
Proof.
  induction ws as [|w ws IH]; [done|].
  destruct ws as [|w' ws]; [done|].
  rewrite !fmap_cons in *. cbn [join] in *. rewrite IH.
  unfold lower. by rewrite !fmap_app.
Qed.

Lemma lower_idemp (s : str) : lower (lower s) = lower s.
Proof.
  unfold lower. rewrite <- list_fmap_compose.
  apply list_fmap_ext. intros _ c _. apply lower_char_idemp.
Qed.

(** The id is a function of the scrubbed, case-folded name. *)
Lemma generate_id_folded (name : str) :
  generate_id name = join [underscore] (split (lower (scrub name))).
Proof.
  unfold generate_id, split.
  change (split_from [] (lower (scrub name)))
    with (split_from (lower []) (lower (scrub name))).
  rewrite split_from_lower.
  change [underscore] with (lower [underscore]) at 2.
  by rewrite join_lower.
Qed.

End SlugMore.

(** X1. The derived id is empty exactly when nothing but whitespace
    survives the scrubbing of the name. *)
Theorem generate_id_empty_iff (name : str) :
  Slug.generate_id name = [] ↔ Forall (λ c, Str.is_space c = true) (Slug.scrub name).
Proof.
  unfold Slug.generate_id, Str.lower.
  trans (Str.join [Str.underscore] (Str.split (Slug.scrub name)) = []).
  { split; [apply fmap_nil_inv | by intros ->]. }
  rewrite SlugMore.join_nil_iff by apply SlugMore.split_from_nonempty.
  unfold Str.split. rewrite StrFacts.split_from_nil_iff.
  rewrite forallb_forall, Forall_forall.
  split; [intros [_ H] c Hc; by apply H, list_elem_of_In
         | intros H; split; [done|]; intros c Hc; by apply H, list_elem_of_In].
Qed.

(** X2. Two names get the same id whenever they agree once the characters
    outside [[A-Za-z0-9_-]] and whitespace are removed and ASCII letters are
    set in lower case: ids do not tell such names apart. *)
Theorem generate_id_collides (name1 name2 : str) :
  Str.lower (Slug.scrub name1) = Str.lower (Slug.scrub name2) →
  Slug.generate_id name1 = Slug.generate_id name2.
Proof. intros H. by rewrite !SlugMore.generate_id_folded, H. Qed.

Lemma generate_id_collides_witness :
  Slug.generate_id (py "Core RTR #1") = Slug.generate_id (py "core (rtr) 1").
Proof. apply generate_id_collides. vm_compute. reflexivity. Defined.

(** ** What construction writes *)

Module EffectFacts.
Import Device MonadFacts DeviceFacts Effects.

Lemma extends_refl (w : World) : extends w w.
Proof. split; reflexivity. Qed.

Lemma extends_trans (w1 w2 w3 : World) : extends w1 w2 → extends w2 w3 → extends w1 w3.
Proof. intros [? ?] [? ?]. split; etrans; done. Qed.

Lemma monotone_lift {A} (r : result A) : monotone (lift r).
Proof. intros w r' w' [= _ <-]. apply extends_refl. Qed.

Lemma monotone_ret {A} (a : A) : monotone (mret (M := M) a).
Proof. intros w r' w' [= _ <-]. apply extends_refl. Qed.

Lemma monotone_bind {A B} (m : M A) (f : A → M B) :
  monotone m → (∀ a, monotone (f a)) → monotone (m ≫= f).
Proof.
  intros Hm Hf w r w'. unfold mbind, M_bind.
  destruct (m w) as [[a|e] w1] eqn:Hmw.
  - intros H. eapply extends_trans; [by eapply Hm | by eapply Hf].
  - intros [= _ <-]. by eapply Hm.
Qed.

Lemma monotone_log_warning (message : string) (kwargs : list (string * str)) :
  monotone (log_warning message kwargs).
Proof.
  intros w r w' [= _ <-]. split; simpl; [done | by apply prefix_app_r].
Qed.

Lemma monotone_path_exists (p : str) : monotone (path_exists p).
Proof.
  intros w r w'. unfold path_exists.
  destruct (bool_decide (p ∈ unreadable w)); intros [= _ <-]; apply extends_refl.
Qed.

Lemma monotone_path_touch (p : str) : monotone (path_touch p).
Proof.
  intros w r w'. unfold path_touch.
  destruct (bool_decide (p ∈ unwritable w)); intros [= _ <-]; [apply extends_refl|].
  split; simpl; [apply union_subseteq_r | done].
Qed.

Lemma monotone_validate_ssl (env : Env) (value : option Ssl.t) (name : str) :
  monotone (validate_ssl env value name).
Proof.
  unfold validate_ssl. destruct value as [v|]; [|apply monotone_ret].
  destruct (Ssl.enable v && bool_decide (Ssl.cert v = None)); [|apply monotone_ret].
  apply monotone_bind; [|intros; apply monotone_ret].
  apply monotone_bind; [apply monotone_path_exists|].
  intros [|]; [apply monotone_ret|].
  apply monotone_bind; [apply monotone_log_warning | intros; apply monotone_path_touch].
Qed.

Lemma monotone__generate_id (values : RawDevice) : monotone (_generate_id values).
Proof.
  unfold _generate_id. destruct (kw_name values); [|apply monotone_lift].
  apply monotone_bind; [|intros []; apply monotone_ret].
  destruct (kw_display_name values); [|apply monotone_ret].
  apply monotone_bind; [apply monotone_log_warning | intros; apply monotone_ret].
Qed.

Lemma monotone_super_init (env : Env) (_id : str) (values : RawDevice) :
  monotone (super_init env _id values).
Proof.
  unfold super_init.
  repeat (apply monotone_bind;
          [first [apply monotone_lift | apply monotone_validate_ssl] | intros ?]).
  apply monotone_ret.
Qed.

Lemma monotone_init (env : Env) (kwargs : RawDevice) : monotone (init env kwargs).
Proof.
  unfold init, validated.
  apply monotone_bind.
  - apply monotone_bind; [apply monotone_lift | intros k].
    apply monotone_bind; [apply monotone__generate_id | intros []].
    apply monotone_super_init.
  - intros self. apply monotone_bind; [apply monotone_lift | intros; apply monotone_ret].
Qed.

Lemma monotone_ingest (env : Env) (input_params : list RawDevice)
    (objects : gmap str t) (hostnames ids : gset str) :
  monotone (Devices.ingest env input_params objects hostnames ids).
Proof.
  revert objects hostnames ids.
  induction input_params as [|definition input_params IH]; intros objects hostnames ids.
  - apply monotone_ret.
  - cbn [Devices.ingest]. apply monotone_bind; [apply monotone_init | intros; apply IH].
Qed.

Lemma monotone_devices_init (env : Env) (input_params : list RawDevice) :
  monotone (Devices.init env input_params).
Proof.
  unfold Devices.init. apply monotone_bind; [apply monotone_ingest|].
  intros [[? ?] ?]. apply monotone_ret.
Qed.

End EffectFacts.

(** X3. Construction of a device or of a directory, whether it returns or
    raises, removes no file and no logged warning: the world it ends in
    holds every file of the world it started in, and its warnings begin
    with those already logged. *)
Theorem construction_extends_world (env : Env) :
  (∀ kwargs w r w', Device.init env kwargs w = (r, w') → extends w w')
  ∧ (∀ input_params w r w', Devices.init env input_params w = (r, w') → extends w w').
Proof.
  split.
  - intros kwargs. apply EffectFacts.monotone_init.
  - intros input_params. apply EffectFacts.monotone_devices_init.
Qed.

Lemma construction_extends_world_witness :
  extends Sample.world Sample2.secure_world.
Proof.
  apply (proj1 (construction_extends_world Sample.env) Sample2.secure_rtr
           Sample.world (Ok Sample2.secure_device) Sample2.secure_world).
  vm_compute. reflexivity.
Defined.

Module SslFacts.
Import Device MonadFacts DeviceFacts Effects.

(** What [validate_ssl] returns or raises, and the world it leaves. *)
Lemma validate_ssl_run (env : Env) (value : option Ssl.t) (name : str) (w : World) :
  validate_ssl env value name w
  = if ssl_defaulted value then
      let p := cert_path env name in
      let ssl := Some {| Ssl.enable := true; Ssl.cert := Some p |} in
      if bool_decide (p ∈ unreadable w) then (Raise (OSError p), w)
      else if bool_decide (p ∈ files w) then (Ok ssl, w)
      else if bool_decide (p ∈ unwritable w) then (Raise (OSError p), warned name w)
      else (Ok ssl, created p name w)
    else (Ok value, w).
Proof.
  unfold validate_ssl, ssl_defaulted. destruct value as [v|]; [|done].
  destruct (Ssl.enable v) eqn:Henable; simpl; [|done].
  destruct (bool_decide (Ssl.cert v = None)); [|done].
  unfold mbind, M_bind, path_exists.
  destruct (bool_decide (cert_path env name ∈ unreadable w)); [done|].
  destruct (bool_decide (cert_path env name ∈ files w)); [done|].
  unfold log_warning, path_touch, warned, created. simpl.
  by destruct (bool_decide (cert_path env name ∈ unwritable w)).
Qed.

Lemma validate_ssl_world (env : Env) (k : RawDevice) (name : str) (w w' : World)
    (ssl : option Ssl.t) :
  validate_ssl env (kw_ssl k) name w = (Ok ssl, w') →
  files w' = (if ssl_defaulted (kw_ssl k) && negb (bool_decide (cert_path env name ∈ files w))
              then {[cert_path env name]} ∪ files w else files w)
  ∧ warnings w' = warnings w ++
      (if ssl_defaulted (kw_ssl k) && negb (bool_decide (cert_path env name ∈ files w))
       then [cert_warning name] else []).
Proof.
  rewrite validate_ssl_run.
  destruct (ssl_defaulted (kw_ssl k)); simpl.
  - destruct (bool_decide (cert_path env name ∈ unreadable w)); [done|].
    destruct (bool_decide (cert_path env name ∈ files w)); simpl.
    + intros [= _ <-]. by rewrite app_nil_r.
    + destruct (bool_decide (cert_path env name ∈ unwritable w)); [done|].
      by intros [= _ <-].
  - intros [= _ <-]. by rewrite app_nil_r.
Qed.

Lemma validate_ssl_cert (env : Env) (value : option Ssl.t) (name : str) (w w' : World)
    (ssl : option Ssl.t) :
  validate_ssl env value name w = (Ok ssl, w') →
  ∀ v, ssl = Some v → Ssl.enable v = true → is_Some (Ssl.cert v).
Proof.
  rewrite validate_ssl_run. destruct (ssl_defaulted value) eqn:Hdef.
  - simpl.
    assert (∀ r : result (option Ssl.t) * World,
              (r.1 = Ok ssl → ∀ v, ssl = Some v → is_Some (Ssl.cert v)) →
              r = (Ok ssl, w') → ∀ v, ssl = Some v → Ssl.enable v = true →
              is_Some (Ssl.cert v)) as Hgen
      by (intros [r1 r2] Hr [= -> _] v Hv _; by apply Hr).
    apply Hgen.
    repeat (match goal with |- context [bool_decide ?P] => destruct (bool_decide P) end);
      simpl; try done; intros [= <-] v [= <-]; by eexists.
  - intros [= <- _] v -> Henable. unfold ssl_defaulted in Hdef.
    rewrite Henable in Hdef. simpl in Hdef.
    apply bool_decide_eq_false in Hdef.
    by destruct (Ssl.cert v); [eexists|].
Qed.

End SslFacts.

(** X4. What a successful construction writes: the warnings it logs after
    those already there are the deprecation of [display_name] when that
    field is given, then the missing certificate when SSL is enabled with
    no certificate and the default file does not exist; the only file it can
    create is that default certificate file. *)
Theorem construction_effects (env : Env) (kwargs : RawDevice) (w w' : World)
    (self : Device.t) :
  Device.init env kwargs w = (Ok self, w') →
  ∃ k,
    check_legacy_fields env kwargs = Ok k
    ∧ files w' = Effects.touched env k (Device.name self) w
    ∧ warnings w' = warnings w ++ Effects.logged env k (Device.name self) w.
Proof.
  intros Hinit. apply DeviceFacts.init_inv in Hinit as [Hv _].
  apply DeviceFacts.validated_inv in Hv as (k & name & Hk & Hname & Hsuper).
  simpl in Hsuper. apply DeviceFacts.super_init_inv in Hsuper
    as (r & name' & ? & ssl & ? & ? & _ & Hname' & _ & Hssl & _ & _ & ->).
  exists k. split; [done|]. simpl in *.
  apply (SslFacts.validate_ssl_world env k) in Hssl as [Hfiles Hwarnings].
  unfold Effects.touched, Effects.logged.
  rewrite Hfiles, Hwarnings. unfold Device.after_generate_id.
  destruct (kw_display_name k); simpl; [|done].
  split; [done|]. by rewrite <- app_assoc.
Qed.

Lemma construction_effects_witness :
  ∃ k,
    check_legacy_fields Sample.env Sample2.secure_rtr = Ok k
    ∧ files Sample2.secure_world
      = Effects.touched Sample.env k (py "Secure RTR") Sample.world
    ∧ warnings Sample2.secure_world
      = warnings Sample.world ++ Effects.logged Sample.env k (py "Secure RTR") Sample.world.
Proof.
  apply (construction_effects Sample.env Sample2.secure_rtr Sample.world
           Sample2.secure_world Sample2.secure_device).
  vm_compute. reflexivity.
Defined.

(** X5. [validate_ssl] returns the value as it is, in an unchanged world,
    unless SSL is enabled and no certificate is given. Then it raises
    exactly when the file system refuses a call on the default certificate
    path (the path cannot be examined, or the file is missing and cannot be
    created): the error is that [OSError] and no file has been written.
    When it returns, the value holds the default path and the file of that
    path exists afterwards. An enabled SSL it returns always has a
    certificate, and validating its result again changes neither the value
    nor the world. *)
Theorem validate_ssl_defaults (env : Env) (value : option Ssl.t) (name : str) (w : World) :
  (Effects.ssl_defaulted value = false →
   Device.validate_ssl env value name w = (Ok value, w))
  ∧ ((∃ e w', Device.validate_ssl env value name w = (Raise e, w'))
     ↔ Effects.ssl_defaulted value = true
       ∧ (cert_path env name ∈ unreadable w
          ∨ ((cert_path env name ∉ files w) ∧ cert_path env name ∈ unwritable w)))
  ∧ (∀ e w', Device.validate_ssl env value name w = (Raise e, w') →
             e = OSError (cert_path env name) ∧ files w' = files w)
  ∧ (∀ ssl w',
       Device.validate_ssl env value name w = (Ok ssl, w') →
       (Effects.ssl_defaulted value = true →
        ssl = Some {| Ssl.enable := true; Ssl.cert := Some (cert_path env name) |}
        ∧ cert_path env name ∈ files w')
       ∧ (∀ v, ssl = Some v → Ssl.enable v = true → is_Some (Ssl.cert v))
       ∧ Device.validate_ssl env ssl name w' = (Ok ssl, w')).
Proof.
  split_and!.
  - intros Hdef. by rewrite SslFacts.validate_ssl_run, Hdef.
  - rewrite SslFacts.validate_ssl_run.
    destruct (Effects.ssl_defaulted value); simpl.
    + destruct (decide (cert_path env name ∈ unreadable w)) as [H1|H1];
        [rewrite (bool_decide_eq_true_2 _ H1) | rewrite (bool_decide_eq_false_2 _ H1)].
      { split; [intros _; split; [done | by left] | intros _; by eexists _, _]. }
      destruct (decide (cert_path env name ∈ files w)) as [H2|H2];
        [rewrite (bool_decide_eq_true_2 _ H2) | rewrite (bool_decide_eq_false_2 _ H2)].
      { split; [by intros (? & ? & [=]) | intros [_ [?|[? ?]]]; done]. }
      destruct (decide (cert_path env name ∈ unwritable w)) as [H3|H3];
        [rewrite (bool_decide_eq_true_2 _ H3) | rewrite (bool_decide_eq_false_2 _ H3)].
      { split; [intros _; split; [done | by right] | intros _; by eexists _, _]. }
      split; [by intros (? & ? & [=]) | intros [_ [?|[? ?]]]; done].
    + split; [by intros (? & ? & [=]) | by intros [[=] _]].
  - intros e w'. rewrite SslFacts.validate_ssl_run.
    destruct (Effects.ssl_defaulted value); simpl; [|done].
    repeat case_bool_decide; by intros [= <- <-].
  - intros ssl w' Hrun. split_and!.
    + intros Hdef. rewrite SslFacts.validate_ssl_run, Hdef in Hrun. simpl in Hrun.
      repeat case_bool_decide; try done; injection Hrun as <- <-; (split; [done|]).
      * done.
      * simpl. apply elem_of_union_l. by apply elem_of_singleton.
    + by apply (SslFacts.validate_ssl_cert env value name w w').
    + rewrite SslFacts.validate_ssl_run.
      assert (Effects.ssl_defaulted ssl = false) as ->; [|done].
      destruct ssl as [v|]; [|done]. unfold Effects.ssl_defaulted.
      destruct (Ssl.enable v) eqn:Henable; [|done]. simpl.
      destruct (SslFacts.validate_ssl_cert env value name w w' _ Hrun v eq_refl Henable)
        as [c Hc].
      rewrite Hc. by apply bool_decide_eq_false.
Qed.

Lemma validate_ssl_defaults_witness :
  Device.validate_ssl Sample.env None (py "Secure RTR") Sample.world
    = (Ok None, Sample.world)
  ∧ (∃ e w',
       Device.validate_ssl Sample.env (Some {| Ssl.enable := true; Ssl.cert := None |})
         (py "Secure RTR") Sample2.no_cert_dir = (Raise e, w'))
  ∧ Device.validate_ssl Sample.env
      (Some {| Ssl.enable := true; Ssl.cert := Some Sample2.secure_cert |})
      (py "Secure RTR") Sample2.secure_world
    = (Ok (Some {| Ssl.enable := true; Ssl.cert := Some Sample2.secure_cert |}),
       Sample2.secure_world).
Proof.
  split; [|split].
  - apply (proj1 (validate_ssl_defaults Sample.env None (py "Secure RTR") Sample.world)).
    reflexivity.
  - apply (proj1 (proj2 (validate_ssl_defaults Sample.env
                           (Some {| Ssl.enable := true; Ssl.cert := None |})
                           (py "Secure RTR") Sample2.no_cert_dir))).
    split; [reflexivity|]. right. split.
    + apply (bool_decide_unpack _). vm_compute. exact I.
    + apply (bool_decide_unpack _). vm_compute. exact I.
  - destruct (validate_ssl_defaults Sample.env
                (Some {| Ssl.enable := true; Ssl.cert := None |})
                (py "Secure RTR")
                {| files := ∅;
                   warnings := [Effects.deprecation_warning];
                   unreadable := ∅; unwritable := ∅ |})
      as (_ & _ & _ & Hok).
    destruct (Hok (Some {| Ssl.enable := true; Ssl.cert := Some Sample2.secure_cert |})
                Sample2.secure_world) as (_ & _ & Hagain);
      [vm_compute; reflexivity | exact Hagain].
Defined.

(** ** Invariants of a constructed device *)

(** X6. A constructed device is named by the legacy [display_name] when it
    is given and by [name] otherwise; its id is the id generated from that
    name, made of characters in [[a-z0-9_-]]; its [display_name] is
    cleared. *)
Theorem constructed_identity (env : Env) (kwargs : RawDevice) (w w' : World)
    (self : Device.t) :
  Device.init env kwargs w = (Ok self, w') →
  ∃ k name,
    check_legacy_fields env kwargs = Ok k
    ∧ kw_name k = Some name
    ∧ Device.name self = default name (kw_display_name k)
    ∧ Device.id self = Slug.generate_id (Device.name self)
    ∧ Forall (λ c, Slug.id_char c = true) (Device.id self)
    ∧ Device.display_name self = None.
Proof.
  intros Hinit. apply DeviceFacts.init_inv in Hinit as [Hv _].
  apply DeviceFacts.validated_inv in Hv as (k & name & Hk & Hname & Hsuper).
  simpl in Hsuper. apply DeviceFacts.super_init_inv in Hsuper
    as (r & name' & ? & ssl & ? & ? & _ & Hname' & _ & _ & _ & _ & ->).
  simpl in *. injection Hname' as <-.
  exists k, name. split_and!; try done.
  apply SlugFacts.generate_id_chars.
Qed.

Lemma constructed_identity_witness :
  ∃ k name,
    check_legacy_fields Sample.env Sample2.secure_rtr = Ok k
    ∧ kw_name k = Some name
    ∧ Device.name Sample2.secure_device = default name (kw_display_name k)
    ∧ Device.id Sample2.secure_device = Slug.generate_id (Device.name Sample2.secure_device)
    ∧ Forall (λ c, Slug.id_char c = true) (Device.id Sample2.secure_device)
    ∧ Device.display_name Sample2.secure_device = None.
Proof.
  apply (constructed_identity Sample.env Sample2.secure_rtr Sample.world
           Sample2.secure_world).
  vm_compute. reflexivity.
Defined.

(** X7. The fields of a constructed device have passed their validators:
    its platform is the declared one rewritten by the alias table and is
    supported; structured output is set, and is on only on a platform that
    supports it; a host name address resolves; an enabled SSL has a
    certificate; the port is the one given, 22 by default. *)
Theorem constructed_fields (env : Env) (kwargs : RawDevice) (w w' : World)
    (self : Device.t) :
  Device.init env kwargs w = (Ok self, w') →
  ∃ k declared,
    check_legacy_fields env kwargs = Ok k
    ∧ kw_platform k = Some declared
    ∧ Device.platform self = default declared (SCRAPE_HELPERS env !! declared)
    ∧ validate_platform env (Device.platform self) = true
    ∧ is_Some (Device.structured_output self)
    ∧ (Device.structured_output self = Some true →
       Device.platform self ∈ SUPPORTED_STRUCTURED_OUTPUT env)
    ∧ (∀ h, Device.address self = Hostname h →
            existsb (λ b, b) (resolve_hostname env h) = true)
    ∧ (∀ v, Device.ssl self = Some v → Ssl.enable v = true → is_Some (Ssl.cert v))
    ∧ Device.port self = default 22%Z (kw_port k).
Proof.
  intros Hinit. apply DeviceFacts.init_inv in Hinit as [Hv _].
  apply DeviceFacts.validated_inv in Hv as (k & name & Hk & Hname & Hsuper).
  simpl in Hsuper. apply DeviceFacts.super_init_inv in Hsuper
    as (r & name' & address & ssl & so & driver
        & Hr & _ & Haddr & Hssl & Hso & _ & ->).
  destruct (ResolveFacts.validate_device_inv env _ r Hr)
    as (declared & option & Hp & Hcanon & Hsup & _).
  simpl in *. exists k, declared.
  split; [done|]. split; [done|]. split; [done|]. split; [done|].
  split; [by eexists|]. split_and!.
  - intros [= ->]. unfold Device.validate_structured_output in Hso.
    destruct (kw_structured_output k) as [|[]|]; try done;
      destruct (bool_decide (Device.r_platform r ∈ SUPPORTED_STRUCTURED_OUTPUT env)) eqn:Hb;
      try done; by apply bool_decide_eq_true in Hb.
  - intros h ->. unfold Device.validate_address in Haddr.
    destruct (kw_address k) as [| |h']; try done.
    destruct (existsb _ (resolve_hostname env h')) eqn:Hres; [|done].
    by injection Haddr as ->.
  - intros v -> Henable. by apply (SslFacts.validate_ssl_cert _ _ _ _ _ _ Hssl).
  - done.
Qed.

Lemma constructed_fields_witness :
  ∃ k declared,
    check_legacy_fields Sample.env Sample2.secure_rtr = Ok k
    ∧ kw_platform k = Some declared
    ∧ Device.platform Sample2.secure_device
      = default declared (SCRAPE_HELPERS Sample.env !! declared)
    ∧ validate_platform Sample.env (Device.platform Sample2.secure_device) = true
    ∧ is_Some (Device.structured_output Sample2.secure_device)
    ∧ (Device.structured_output Sample2.secure_device = Some true →
       Device.platform Sample2.secure_device ∈ SUPPORTED_STRUCTURED_OUTPUT Sample.env)
    ∧ (∀ h, Device.address Sample2.secure_device = Hostname h →
            existsb (λ b, b) (resolve_hostname Sample.env h) = true)
    ∧ (∀ v, Device.ssl Sample2.secure_device = Some v → Ssl.enable v = true →
            is_Some (Ssl.cert v))
    ∧ Device.port Sample2.secure_device = default 22%Z (kw_port k).
Proof.
  apply (constructed_fields Sample.env Sample2.secure_rtr Sample.world
           Sample2.secure_world).
  vm_compute. reflexivity.
Defined.

(** ** Errors of construction *)

Module ErrorFacts.
Import Device MonadFacts DeviceFacts.

Lemma init_validated_raise (env : Env) (kwargs : RawDevice) (w w' : World) (e : error) :
  validated env kwargs w = (Raise e, w') → init env kwargs w = (Raise e, w').
Proof. intros H. unfold init. by apply bind_Raise. Qed.

Lemma super_init_device_raise (env : Env) (_id : str) (values : RawDevice)
    (w : World) (e : error) :
  validate_device env values = Raise e →
  super_init env _id values w = (Raise e, w).
Proof.
  intros H. unfold super_init. apply bind_Raise. unfold lift. by rewrite H.
Qed.

Lemma super_init_address_raise (env : Env) (_id : str) (values : RawDevice)
    (w : World) (r : resolved) (name : str) (e : error) :
  validate_device env values = Ok r →
  kw_name values = Some name →
  validate_address env (kw_address values) name = Raise e →
  super_init env _id values w = (Raise e, w).
Proof.
  intros Hr Hname Haddr. unfold super_init.
  erewrite bind_Ok by (unfold lift; rewrite Hr; reflexivity).
  erewrite bind_Ok by (unfold lift, getitem_name; rewrite Hname; reflexivity).
  apply bind_Raise. unfold lift. by rewrite Haddr.
Qed.

End ErrorFacts.

(** X8. A definition that has a name but no platform fails with the
    [ConfigError] that names the device (by [display_name] when given);
    one whose platform, once rewritten by the alias table, is not supported
    fails with [UnsupportedDevice] of the rewritten platform. Both are
    raised before any other field is validated: nothing but the deprecation
    warning of [display_name] has been written. *)
Theorem platform_errors (env : Env) (kwargs k : RawDevice) (name : str) (w : World) :
  check_legacy_fields env kwargs = Ok k →
  kw_name k = Some name →
  (kw_platform k = None →
   Device.init env kwargs w
   = (Raise (ConfigError
        "Device '{device}' is missing a 'platform' (Network Operating System) property"
        [("device", KSet [default name (kw_display_name k)])]),
      Device.after_generate_id k w))
  ∧ (∀ declared,
       kw_platform k = Some declared →
       validate_platform env (default declared (SCRAPE_HELPERS env !! declared)) = false →
       Device.init env kwargs w
       = (Raise (UnsupportedDevice (default declared (SCRAPE_HELPERS env !! declared))),
          Device.after_generate_id k w)).
Proof.
  intros Hk Hname. split.
  - intros Hp. apply ErrorFacts.init_validated_raise.
    rewrite (DeviceFacts.validated_named env kwargs k name w Hk Hname). simpl.
    apply ErrorFacts.super_init_device_raise.
    unfold Device.validate_device. simpl. by rewrite Hp.
  - intros declared Hp Hsup. apply ErrorFacts.init_validated_raise.
    rewrite (DeviceFacts.validated_named env kwargs k name w Hk Hname). simpl.
    apply ErrorFacts.super_init_device_raise.
    unfold Device.validate_device. simpl. by rewrite Hp, Hsup.
Qed.

Lemma platform_errors_witness :
  Device.init Sample.env (unset_kw_platform Sample.core_rtr) Sample.world
  = (Raise (ConfigError
       "Device '{device}' is missing a 'platform' (Network Operating System) property"
       [("device", KSet [py "Core RTR #1"])]),
     Sample.world)
  ∧ Device.init Sample.env (set_kw_platform (py "vyos") Sample.core_rtr) Sample.world
    = (Raise (UnsupportedDevice (py "vyos")), Sample.world).
Proof.
  split.
  - apply (proj1 (platform_errors Sample.env (unset_kw_platform Sample.core_rtr)
                    (unset_kw_platform Sample.core_rtr) (py "Core RTR #1")
                    Sample.world eq_refl eq_refl)).
    reflexivity.
  - apply (proj2 (platform_errors Sample.env (set_kw_platform (py "vyos") Sample.core_rtr)
                    (set_kw_platform (py "vyos") Sample.core_rtr) (py "Core RTR #1")
                    Sample.world eq_refl eq_refl) (py "vyos")).
    + reflexivity.
    + vm_compute. reflexivity.
Defined.

(** X9. When the root validator has passed, a host name address that does
    not resolve makes the inherited constructor raise the [ConfigError]
    that carries the device name and the address, in the world it started
    in: no certificate file has been touched and nothing logged. An IP
    address is accepted whatever the resolver says. *)
Theorem unresolvable_address (env : Env) (_id : str) (values : RawDevice) (w : World)
    (r : Device.resolved) (name : str) :
  Device.validate_device env values = Ok r →
  kw_name values = Some name →
  (∀ h, kw_address values = Hostname h →
        existsb (λ b, b) (resolve_hostname env h) = false →
        Device.super_init env _id values w
        = (Raise (ConfigError
             "Device '{d}' has an address of '{a}', which is not resolvable."
             [("d", KStr name); ("a", KStr h)]), w))
  ∧ (∀ a, kw_address values = IPv4Address a ∨ kw_address values = IPv6Address a →
          Device.validate_address env (kw_address values) name = Ok (kw_address values)).
Proof.
  intros Hr Hname. split.
  - intros h Haddr Hres.
    apply (ErrorFacts.super_init_address_raise env _id values w r name); [done..|].
    unfold Device.validate_address. by rewrite Haddr, Hres.
  - by intros a [-> | ->].
Qed.

Lemma unresolvable_address_witness :
  Device.super_init Sample.env (py "core_rtr_1")
    (Device.named (py "Core RTR #1")
       (set_kw_address (Hostname (py "nowhere.example.net"))
          (set_kw_ssl (Some {| Ssl.enable := true; Ssl.cert := None |}) Sample.core_rtr)))
    Sample.world
  = (Raise (ConfigError
       "Device '{d}' has an address of '{a}', which is not resolvable."
       [("d", KStr (py "Core RTR #1")); ("a", KStr (py "nowhere.example.net"))]),
     Sample.world).
Proof.
  destruct (unresolvable_address Sample.env (py "core_rtr_1")
              (Device.named (py "Core RTR #1")
                 (set_kw_address (Hostname (py "nowhere.example.net"))
                    (set_kw_ssl (Some {| Ssl.enable := true; Ssl.cert := None |})
                       Sample.core_rtr)))
              Sample.world
              {| Device.r_platform := py "cisco_ios";
                 Device.r_directives := Device.directives Sample.core_device |}
              (py "Core RTR #1")) as [Hraise _].
  - vm_compute. reflexivity.
  - reflexivity.
  - apply (Hraise (py "nowhere.example.net")); [reflexivity | vm_compute; reflexivity].
Defined.

(** ** The raw directives list *)

Module StatementFacts.
Import Device DirectiveSpec ResolveFacts.

Lemma last_value_app (key : str) (a b : list (str * OptionValue)) :
  last_value key (a ++ b)
  = match last_value key b with
    | Some v => Some v
    | None => last_value key a
    end.
Proof.
  induction a as [|[k v] a IH]; simpl.
  - by destruct (last_value key b).
  - rewrite IH. by destruct (last_value key b).
Qed.

Lemma last_value_absent (key : str) (items : list (str * OptionValue)) :
  key ∉ items.*1 → last_value key items = None.
Proof.
  induction items as [|[k v] items IH]; [done|].
  rewrite fmap_cons, not_elem_of_cons. simpl. intros [Hne Hrest].
  rewrite IH by done. by rewrite decide_False.
Qed.

Lemma option_entries_app (l1 l2 : list Statement) :
  option_entries (l1 ++ l2) = option_entries l1 ++ option_entries l2.
Proof. unfold option_entries. apply bind_app. Qed.

Lemma option_entries_cons (st : Statement) (l : list Statement) :
  option_entries (st :: l)
  = match st with SDict items => items | _ => [] end ++ option_entries l.
Proof. reflexivity. Qed.

Lemma string_ids_app (l1 l2 : list Statement) :
  string_ids (l1 ++ l2) = string_ids l1 ++ string_ids l2.
Proof. unfold string_ids. apply bind_app. Qed.

Lemma last_value_no_builtins (l : list Statement) :
  Forall no_builtins l → last_value (py "builtins") (option_entries l) = None.
Proof.
  induction 1 as [|st l Hst _ IH]; [done|].
  rewrite option_entries_cons, last_value_app, IH.
  destruct st as [|items|]; try done. by apply last_value_absent.
Qed.

Lemma inert_no_builtins (st : Statement) : inert st → no_builtins st.
Proof. by destruct st. Qed.

Lemma builtins_option_inert (l1 l2 : list Statement) (st : Statement) :
  inert st → builtins_option (l1 ++ st :: l2) = builtins_option (l1 ++ l2).
Proof.
  intros Hst. unfold builtins_option.
  rewrite !option_entries_app, option_entries_cons, !last_value_app.
  assert (last_value (py "builtins") (match st with SDict items => items | _ => [] end)
          = None) as ->; [|by destruct (last_value _ (option_entries l2))].
  destruct st as [|items|]; try done. by apply last_value_absent.
Qed.

Lemma string_ids_inert (l1 l2 : list Statement) (st : Statement) :
  inert st → string_ids (l1 ++ st :: l2) = string_ids (l1 ++ l2).
Proof.
  intros Hst. rewrite !string_ids_app. f_equal.
  change (st :: l2) with ([st] ++ l2). rewrite string_ids_app.
  assert (string_ids [st] = []) as ->; [|done].
  destruct st as [s| |]; try done. simpl in Hst. unfold string_ids. simpl.
  by rewrite Hst.
Qed.

End StatementFacts.

(** X10. An entry of the raw [directives] list that is neither a string nor
    a mapping, a string that begins with [__], or a mapping without the key
    [builtins] (an option the model does not know) changes nothing: the
    root validator returns the same with the entry removed. *)
Theorem inert_statement_ignored (env : Env) (values : RawDevice)
    (l1 l2 : list Statement) (st : Statement) :
  inert st →
  kw_directives values = Some (l1 ++ st :: l2) →
  Device.validate_device env values
  = Device.validate_device env (set_kw_directives (l1 ++ l2) values).
Proof.
  intros Hst Hd. unfold Device.validate_device. simpl. rewrite Hd. simpl.
  destruct (kw_platform values) as [platform|]; [|done].
  destruct (validate_platform env _); [|done]. simpl.
  rewrite !ResolveFacts.options_init.
  rewrite (StatementFacts.builtins_option_inert l1 l2 st Hst).
  by rewrite (StatementFacts.string_ids_inert l1 l2 st Hst).
Qed.

Lemma inert_statement_ignored_witness :
  Device.validate_device Sample.env
    (set_kw_directives
       [SStr (py "show-bgp"); SStr (py "__hyperglass_juniper_bgp_route__");
        SDict [(py "builtins", OBool false)]]
       Sample.core_rtr)
  = Device.validate_device Sample.env
      (set_kw_directives
         ([SStr (py "show-bgp")] ++ [SDict [(py "builtins", OBool false)]])
         (set_kw_directives
            [SStr (py "show-bgp"); SStr (py "__hyperglass_juniper_bgp_route__");
             SDict [(py "builtins", OBool false)]]
            Sample.core_rtr)).
Proof.
  apply (inert_statement_ignored Sample.env _ [SStr (py "show-bgp")]
           [SDict [(py "builtins", OBool false)]]
           (SStr (py "__hyperglass_juniper_bgp_route__"))).
  - vm_compute. reflexivity.
  - reflexivity.
Defined.

(** X11. The last mapping entry that sets [builtins] decides the option,
    wherever it stands among the other entries: the options built from the
    list are those built from that entry alone. *)
Theorem last_builtins_entry_wins (l1 l2 : list Statement)
    (before after : list (str * OptionValue)) (v : OptionValue) :
  Forall no_builtins l2 →
  py "builtins" ∉ after.*1 →
  DirectiveOptions.init
    (Device.merged_options
       (l1 ++ SDict (before ++ (py "builtins", v) :: after) :: l2))
  = DirectiveOptions.init {[py "builtins" := v]}.
Proof.
  intros Hl2 Hafter. unfold DirectiveOptions.init.
  rewrite ResolveFacts.merged_options_lookup, lookup_singleton_eq.
  rewrite StatementFacts.option_entries_app, StatementFacts.option_entries_cons.
  rewrite !StatementFacts.last_value_app.
  rewrite (StatementFacts.last_value_no_builtins l2 Hl2).
  cbn [DirectiveSpec.last_value].
  rewrite (StatementFacts.last_value_absent _ after Hafter).
  by rewrite decide_True.
Qed.

Lemma last_builtins_entry_wins_witness :
  DirectiveOptions.init
    (Device.merged_options
       ([SDict [(py "builtins", OBool true)]; SStr (py "show-bgp")]
        ++ SDict ([(py "colour", OOther)] ++ (py "builtins", OBool false) :: [])
           :: [SStr (py "vrf-route")]))
  = DirectiveOptions.init {[py "builtins" := OBool false]}.
Proof.
  apply last_builtins_entry_wins.
  - repeat constructor.
  - apply not_elem_of_nil.
Defined.

(** ** The resolved directives *)

Module SelectionFacts.
Import Device DirectiveSpec ResolveFacts.

Lemma elem_of_unique_from_1 (seen : gset str) (ds : list Directive.t) (d : Directive.t) :
  d ∈ Directives.unique_from seen ds → d ∈ ds ∧ Directive.id d ∉ seen.
Proof.
  revert seen. induction ds as [|x ds IH]; intros seen; simpl.
  - by intros ?%elem_of_nil.
  - destruct (decide (Directive.id x ∈ seen)) as [Hin|Hnot].
    + intros [? ?]%IH. split; [by right | done].
    + intros [->|[? Hd]%IH]%elem_of_cons; [split; [by left | done]|].
      split; [by right|]. intros ?. apply Hd, elem_of_union. by right.
Qed.

Lemma elem_of_unique_from_2 (seen : gset str) (ds : list Directive.t) (d : Directive.t) :
  d ∈ ds → Directive.id d ∉ seen →
  (∀ d', d' ∈ ds → Directive.id d' = Directive.id d → d' = d) →
  d ∈ Directives.unique_from seen ds.
Proof.
  revert seen. induction ds as [|x ds IH]; intros seen Hd Hseen Hsame.
  - by apply elem_of_nil in Hd.
  - simpl. destruct (decide (Directive.id x = Directive.id d)) as [Heq|Hid].
    + assert (x = d) as -> by (apply Hsame; [by left | done]).
      rewrite decide_False by done. by left.
    + apply elem_of_cons in Hd as [->|Hd]; [done|].
      destruct (decide (Directive.id x ∈ seen)).
      * apply IH; [done..|]. intros d' ?. apply Hsame. by right.
      * right. apply IH; [done| |].
        -- intros [?%elem_of_singleton|?]%elem_of_union; [congruence | done].
        -- intros d' ?. apply Hsame. by right.
Qed.

Lemma NoDup_unique_from (seen : gset str) (ds : list Directive.t) :
  NoDup (Directive.id <$> Directives.unique_from seen ds).
Proof.
  revert seen. induction ds as [|x ds IH]; intros seen; simpl; [constructor|].
  destruct (decide (Directive.id x ∈ seen)); [apply IH|].
  rewrite fmap_cons. apply NoDup_cons. split; [|apply IH].
  intros (d & Hid & [_ Hd]%elem_of_unique_from_1)%list_elem_of_fmap.
  apply Hd, elem_of_union. left. by apply elem_of_singleton.
Qed.

Lemma NoDup_fmap_eq {A B} (f : A → B) (l : list A) (x y : A) :
  NoDup (f <$> l) → x ∈ l → y ∈ l → f x = f y → x = y.
Proof.
  induction l as [|z l IH]; [by intros _ ?%elem_of_nil|].
  rewrite fmap_cons. intros [Hz Hnd]%NoDup_cons Hx Hy Hf.
  apply elem_of_cons in Hx as [->|Hx]; apply elem_of_cons in Hy as [->|Hy].
  - done.
  - destruct Hz. rewrite Hf. by apply list_elem_of_fmap_2.
  - destruct Hz. rewrite <- Hf. by apply list_elem_of_fmap_2.
  - by apply IH.
Qed.

(** With distinct catalog ids, the resolution holds the selected
    directives of the catalog. *)
Lemma elem_of_resolve (catalog : list Directive.t) (platform : str)
    (option : DirectiveOptions.builtins_t) (statements : list Statement)
    (d : Directive.t) :
  NoDup (Directive.id <$> catalog) →
  d ∈ resolve catalog platform option statements
  ↔ d ∈ catalog ∧ selected statements platform option d.
Proof.
  intros Hnd.
  assert (∀ x, x ∈ explicit_directives catalog statements
                     ++ effective_builtins option (platform_builtins catalog platform)
               ↔ x ∈ catalog ∧ selected statements platform option x) as Hmem.
  { intros x. rewrite elem_of_app. unfold explicit_directives, effective_builtins,
      platform_builtins, selected.
    rewrite list_elem_of_filter.
    destruct option as [[]|ids]; rewrite ?list_elem_of_filter, ?elem_of_nil;
      intuition congruence. }
  unfold resolve, Directives.unique. split.
  - intros [Hd _]%elem_of_unique_from_1. by apply Hmem.
  - intros Hd. apply elem_of_unique_from_2; [by apply Hmem | apply not_elem_of_empty |].
    intros d' [Hd' _]%Hmem Hid. apply (NoDup_fmap_eq Directive.id catalog); tauto.
Qed.

Lemma has_directives_spec (self : t) (ids : list str) :
  has_directives self ids = true
  ↔ ∃ d, d ∈ directives self ∧ Directive.id d ∈ ids.
Proof.
  unfold has_directives, directive_ids. rewrite existsb_exists. split.
  - intros (i & Hi & Hb). apply bool_decide_eq_true in Hb.
    apply list_elem_of_fmap in Hb as (d & -> & Hd).
    exists d. split; [done | by apply list_elem_of_In].
  - intros (d & Hd & Hi). exists (Directive.id d).
    split; [by apply list_elem_of_In|].
    apply bool_decide_eq_true. by apply list_elem_of_fmap_2.
Qed.

End SelectionFacts.

(** X12. With a catalog whose ids are distinct, the directives the root
    validator resolves have pairwise distinct ids, and they are exactly the
    catalog's directives that the raw list selects: those named by a string
    entry not beginning with [__], and the built-ins of the resolved
    platform that the [builtins] option includes. *)
Theorem resolved_selection (env : Env) (values : RawDevice) (r : Device.resolved) :
  NoDup (Directive.id <$> state_directives env) →
  Device.validate_device env values = Ok r →
  ∃ option,
    DirectiveOptions.init (Device.merged_options (default [] (kw_directives values)))
      = Ok {| DirectiveOptions.builtins := option |}
    ∧ NoDup (Directive.id <$> Device.r_directives r)
    ∧ ∀ d, d ∈ Device.r_directives r
           ↔ d ∈ state_directives env
             ∧ selected (default [] (kw_directives values)) (Device.r_platform r) option d.
Proof.
  intros Hnd Hr.
  destruct (ResolveFacts.validate_device_inv env values r Hr)
    as (platform & option & Hp & Hcanon & Hsup & Hopt).
  rewrite Hcanon in Hsup.
  rewrite (ResolveFacts.validate_device_resolved env values platform option
             Hnd Hp Hsup Hopt) in Hr.
  injection Hr as <-. simpl. exists option. split_and!.
  - by rewrite ResolveFacts.options_init, Hopt.
  - apply SelectionFacts.NoDup_unique_from.
  - intros d. by apply SelectionFacts.elem_of_resolve.
Qed.

Lemma resolved_selection_witness :
  ∃ option,
    DirectiveOptions.init (Device.merged_options [SStr (py "show-bgp")])
      = Ok {| DirectiveOptions.builtins := option |}
    ∧ NoDup (Directive.id <$> [Sample.show_bgp; Sample.ios_bgp_route; Sample.ios_ping])
    ∧ ∀ d, d ∈ [Sample.show_bgp; Sample.ios_bgp_route; Sample.ios_ping]
           ↔ d ∈ state_directives Sample.env
             ∧ selected [SStr (py "show-bgp")] (py "cisco_ios") option d.
Proof.
  apply (resolved_selection Sample.env Sample.core_rtr
           {| Device.r_platform := py "cisco_ios";
              Device.r_directives := [Sample.show_bgp; Sample.ios_bgp_route; Sample.ios_ping] |}).
  - apply (bool_decide_unpack _). vm_compute. exact I.
  - vm_compute. reflexivity.
Defined.

(** X13. With a catalog whose ids are distinct, [has_directives] of a
    constructed device answers true exactly when one of the given ids is
    the id of a catalog directive that the device's raw list selects for
    its platform; with no id given it answers false. *)
Theorem has_directives_selected (env : Env) (kwargs : RawDevice) (w w' : World)
    (self : Device.t) :
  NoDup (Directive.id <$> state_directives env) →
  Device.init env kwargs w = (Ok self, w') →
  Device.has_directives self [] = false
  ∧ ∃ k option,
      check_legacy_fields env kwargs = Ok k
      ∧ DirectiveOptions.init (Device.merged_options (default [] (kw_directives k)))
        = Ok {| DirectiveOptions.builtins := option |}
      ∧ ∀ ids,
          Device.has_directives self ids = true
          ↔ ∃ d, d ∈ state_directives env
                 ∧ Directive.id d ∈ ids
                 ∧ selected (default [] (kw_directives k)) (Device.platform self) option d.
Proof.
  intros Hnd Hinit. split; [done|].
  apply DeviceFacts.init_inv in Hinit as [Hv _].
  apply DeviceFacts.validated_inv in Hv as (k & name & Hk & Hname & Hsuper).
  simpl in Hsuper. apply DeviceFacts.super_init_inv in Hsuper
    as (r & ? & ? & ? & ? & ? & Hr & _ & _ & _ & _ & _ & ->).
  destruct (ResolveFacts.validate_device_inv env _ r Hr)
    as (platform & option & Hp & Hcanon & Hsup & Hopt).
  rewrite Hcanon in Hsup.
  rewrite (ResolveFacts.validate_device_resolved env
             (Device.named (default name (kw_display_name k)) k)
             platform option Hnd Hp Hsup Hopt) in Hr.
  injection Hr as <-. simpl in *. exists k, option. split; [done|]. split.
  - by rewrite ResolveFacts.options_init, Hopt.
  - intros ids. rewrite SelectionFacts.has_directives_spec. simpl.
    split.
    + intros (d & Hd & Hi). apply SelectionFacts.elem_of_resolve in Hd as [? ?]; [|done].
      by exists d.
    + intros (d & Hd & Hi & Hsel). exists d. split; [|done].
      by apply SelectionFacts.elem_of_resolve.
Qed.

Lemma has_directives_selected_witness :
  Device.has_directives Sample.core_device [] = false
  ∧ ∃ k option,
      check_legacy_fields Sample.env Sample.core_rtr = Ok k
      ∧ DirectiveOptions.init (Device.merged_options (default [] (kw_directives k)))
        = Ok {| DirectiveOptions.builtins := option |}
      ∧ ∀ ids,
          Device.has_directives Sample.core_device ids = true
          ↔ ∃ d, d ∈ state_directives Sample.env
                 ∧ Directive.id d ∈ ids
                 ∧ selected (default [] (kw_directives k))
                     (Device.platform Sample.core_device) option d.
Proof.
  apply (has_directives_selected Sample.env Sample.core_rtr Sample.world Sample.world).
  - apply (bool_decide_unpack _). vm_compute. exact I.
  - vm_compute. reflexivity.
Defined.

(** ** The directory, continued *)

Module DirectoryFacts.
Import Devices MonadFacts SetFacts DevicesFacts.

Lemma construct_all_app_raise (env : Env) (l1 l2 : list RawDevice) (bad : RawDevice)
    (w w1 w2 : World) (devices : list Device.t) (e : error) :
  construct_all env l1 w = (Ok devices, w1) →
  Device.init env bad w1 = (Raise e, w2) →
  ∀ objects hostnames ids,
    ingest env (l1 ++ bad :: l2) objects hostnames ids w = (Raise e, w2).
Proof.
  revert w devices. induction l1 as [|definition l1 IH]; intros w devices Hall Hbad.
  - apply ret_Ok_inv in Hall as [_ ->]. intros objects hostnames ids.
    cbn [app ingest]. by apply bind_Raise.
  - cbn [construct_all] in Hall.
    apply bind_Ok_inv in Hall as (device & w0 & Hdevice & Hall).
    apply bind_Ok_inv in Hall as (rest & w0' & Hrest & Hall).
    apply ret_Ok_inv in Hall as [_ ->].
    intros objects hostnames ids. cbn [app ingest].
    rewrite (bind_Ok _ _ _ _ _ Hdevice). by apply (IH w0 rest).
Qed.

Lemma ingest_inv (env : Env) (input_params : list RawDevice)
    (objects : gmap str Device.t) (hostnames ids : gset str) (w w' : World)
    (res : gmap str Device.t * gset str * gset str) :
  ingest env input_params objects hostnames ids w = (Ok res, w') →
  ∃ devices, construct_all env input_params w = (Ok devices, w').
Proof.
  revert objects hostnames ids w.
  induction input_params as [|definition input_params IH];
    intros objects hostnames ids w H.
  - apply ret_Ok_inv in H as [_ ->]. by exists [].
  - cbn [ingest] in H. apply bind_Ok_inv in H as (device & w1 & Hdevice & H).
    apply IH in H as (devices & Hdevices).
    exists (device :: devices). cbn [construct_all].
    rewrite (bind_Ok _ _ _ _ _ Hdevice), (bind_Ok _ _ _ _ _ Hdevices). done.
Qed.

(** A directory that is returned was filled from the devices constructed in
    turn. *)
Lemma directory_init_inv (env : Env) (input_params : list RawDevice) (w w' : World) (self : t) :
  init env input_params w = (Ok self, w') →
  ∃ devices,
    construct_all env input_params w = (Ok devices, w')
    ∧ ids self = elements (list_to_set (Device.id <$> devices) ∪ ∅ : gset str)
    ∧ hostnames self = elements (list_to_set (Device.name <$> devices) ∪ ∅ : gset str)
    ∧ objects self
      = sorted_by_name
          (set_members
             (foldl (λ s device, set_add (Device.id device) device s) ∅ devices)).
Proof.
  intros H. pose proof H as H'. unfold init in H'.
  apply bind_Ok_inv in H' as (res & w1 & Hingest & _).
  apply ingest_inv in Hingest as (devices & Hdevices).
  assert (w1 = w') as ->.
  { pose proof (ingest_constructed env input_params ∅ ∅ ∅ w w1 devices Hdevices) as Hi.
    unfold init in H. rewrite (bind_Ok _ _ _ _ _ Hi) in H. by injection H. }
  exists devices. split; [done|].
  rewrite (init_constructed env input_params w w' devices Hdevices) in H.
  by injection H as <-.
Qed.

Lemma construct_all_Forall (env : Env) (P : Device.t → Prop) :
  (∀ kwargs w self w', Device.init env kwargs w = (Ok self, w') → P self) →
  ∀ input_params w devices w',
    construct_all env input_params w = (Ok devices, w') → Forall P devices.
Proof.
  intros HP. induction input_params as [|definition input_params IH];
    intros w devices w' H.
  - apply ret_Ok_inv in H as [<- _]. constructor.
  - cbn [construct_all] in H.
    apply bind_Ok_inv in H as (device & w1 & Hdevice & H).
    apply bind_Ok_inv in H as (rest & w2 & Hrest & H).
    apply ret_Ok_inv in H as [<- _].
    constructor; [by eapply HP | by eapply IH].
Qed.

Lemma str_leb_total (a b : str) : str_leb a b = true ∨ str_leb b a = true.
Proof.
  revert b. induction a as [|x a IH]; intros [|y b]; simpl; auto.
  destruct (N.ltb_spec x y), (N.ltb_spec y x); auto; lia.
Qed.

Lemma str_leb_trans (a b c : str) :
  str_leb a b = true → str_leb b c = true → str_leb a c = true.
Proof.
  revert b c. induction a as [|x a IH]; intros [|y b] [|z c]; simpl; try done.
  destruct (N.ltb_spec x y), (N.ltb_spec y x), (N.ltb_spec y z), (N.ltb_spec z y),
    (N.ltb_spec x z), (N.ltb_spec z x); try done; try lia.
  apply IH.
Qed.

Lemma name_le_total : Total name_le.
Proof. intros x y. apply str_leb_total. Qed.

Lemma name_le_trans : Transitive name_le.
Proof. intros x y z. apply str_leb_trans. Qed.

Lemma elem_of_filled_ids (devices : list Device.t) (i : str) :
  i ∈ Device.id <$>
        set_members (foldl (λ s device, set_add (Device.id device) device s) ∅ devices)
  ↔ ∃ device, device ∈ devices ∧ Device.id device = i.
Proof.
  rewrite list_elem_of_fmap. split.
  - intros (d & -> & (n & Hn & _)%elem_of_filled_set).
    exists d. split; [by apply list_elem_of_lookup_2 in Hn | done].
  - intros (d & Hd & <-).
    destruct (list_find_elem_of (λ x, Device.id x = Device.id d) devices d Hd eq_refl)
      as [[n x] Hfind].
    apply list_find_Some in Hfind as (Hn & Hid & Hfirst).
    exists x. split; [done|]. apply elem_of_filled_set.
    exists n. split; [done|]. intros j y Hj Hy. rewrite Hid.
    by apply (Hfirst j).
Qed.

End DirectoryFacts.

(** X14. Construction of the directory stops at the first definition that
    does not construct: it raises that definition's error, in the world the
    failed construction left, and the definitions after it are not looked
    at. *)
Theorem directory_fails_fast (env : Env) (l1 l2 : list RawDevice) (bad : RawDevice)
    (w w1 w2 : World) (devices : list Device.t) (e : error) :
  Devices.construct_all env l1 w = (Ok devices, w1) →
  Device.init env bad w1 = (Raise e, w2) →
  Devices.init env (l1 ++ bad :: l2) w = (Raise e, w2).
Proof.
  intros Hall Hbad. unfold Devices.init. apply MonadFacts.bind_Raise.
  by apply (DirectoryFacts.construct_all_app_raise env l1 l2 bad w w1 w2 devices).
Qed.

Lemma directory_fails_fast_witness :
  Devices.init Sample.env
    ([Sample.core_rtr] ++ set_kw_name None Sample.core_rtr :: [Sample2.secure_rtr])
    Sample.world
  = (Raise (ValueError "name is required."), Sample.world).
Proof.
  apply (directory_fails_fast Sample.env [Sample.core_rtr] [Sample2.secure_rtr]
           (set_kw_name None Sample.core_rtr) Sample.world Sample.world Sample.world
           [Sample.core_device]);
    vm_compute; reflexivity.
Defined.

(** X15. The devices of a constructed directory stand in the order of their
    names (code point by code point): each device's name is at most the
    name of every device after it. *)
Theorem directory_sorted_by_name (env : Env) (input_params : list RawDevice)
    (w w' : World) (self : Devices.t) :
  Devices.init env input_params w = (Ok self, w') →
  StronglySorted (λ x y, str_leb (Device.name x) (Device.name y) = true)
    (Devices.objects self).
Proof.
  intros (devices & _ & _ & _ & ->)%DirectoryFacts.directory_init_inv.
  apply (@StronglySorted_merge_sort _ Devices.name_le _
           DirectoryFacts.name_le_trans DirectoryFacts.name_le_total).
Qed.

(** X16. In a constructed directory, [ids] lists without repetition exactly
    the ids of the devices in [objects], so the two have the same length;
    [hostnames] lists without repetition the names of all constructed
    devices, among them the name of every device in [objects]. *)
Theorem directory_indices (env : Env) (input_params : list RawDevice)
    (w w' : World) (self : Devices.t) :
  Devices.init env input_params w = (Ok self, w') →
  Devices.ids self ≡ₚ Device.id <$> Devices.objects self
  ∧ length (Devices.ids self) = length (Devices.objects self)
  ∧ NoDup (Devices.hostnames self)
  ∧ ∀ device, device ∈ Devices.objects self →
              Device.name device ∈ Devices.hostnames self.
Proof.
  intros (devices & _ & Hids & Hnames & Hobjects)%DirectoryFacts.directory_init_inv.
  assert (Devices.ids self ≡ₚ Device.id <$> Devices.objects self) as Hperm.
  { rewrite Hids, Hobjects, DevicesFacts.sorted_by_name_Permutation.
    apply NoDup_Permutation; [apply NoDup_elements | apply SetFacts.NoDup_filled_set_keys |].
    intros i. rewrite DirectoryFacts.elem_of_filled_ids, elem_of_elements,
      elem_of_union, elem_of_list_to_set, list_elem_of_fmap, elem_of_empty.
    split; [intros [(d & -> & Hd)|[]]; by exists d | intros (d & Hd & <-); left; by exists d]. }
  split; [done|]. split; [by rewrite Hperm, length_fmap|].
  split; [rewrite Hnames; apply NoDup_elements|].
  intros device. rewrite Hobjects, Hnames, DevicesFacts.sorted_by_name_Permutation.
  intros (n & Hn & _)%SetFacts.elem_of_filled_set.
  apply elem_of_elements, elem_of_union. left.
  apply elem_of_list_to_set, list_elem_of_fmap_2. by apply list_elem_of_lookup_2 in Hn.
Qed.

Lemma directory_sorted_by_name_witness :
  ∃ self w',
    Devices.init Sample.env [Sample2.secure_rtr; Sample.core_rtr] Sample.world
      = (Ok self, w')
    ∧ StronglySorted (λ x y, str_leb (Device.name x) (Device.name y) = true)
        (Devices.objects self).
Proof.
  destruct (Devices.init Sample.env [Sample2.secure_rtr; Sample.core_rtr] Sample.world)
    as [[self|e] w'] eqn:H; [|vm_compute in H; discriminate].
  exists self, w'. split; [reflexivity|].
  exact (directory_sorted_by_name Sample.env _ Sample.world w' self H).
Defined.

Lemma directory_indices_witness :
  ∃ self w',
    Devices.init Sample.env [Sample.core_rtr; Sample.core_rtr_again] Sample.world
      = (Ok self, w')
    ∧ Devices.ids self ≡ₚ Device.id <$> Devices.objects self
    ∧ length (Devices.ids self) = length (Devices.objects self)
    ∧ NoDup (Devices.hostnames self)
    ∧ ∀ device, device ∈ Devices.objects self →
                Device.name device ∈ Devices.hostnames self.
Proof.
  destruct (Devices.init Sample.env [Sample.core_rtr; Sample.core_rtr_again] Sample.world)
    as [[self|e] w'] eqn:H; [|vm_compute in H; discriminate].
  exists self, w'. split; [reflexivity|].
  exact (directory_indices Sample.env _ Sample.world w' self H).
Defined.

(** The names of devices dropped for a repeated id stay in [hostnames]:
    it can be longer than [objects]. *)
Example hostnames_keep_dropped_names :
  ∃ self,
    Devices.init Sample.env [Sample.core_rtr; Sample.core_rtr_again] Sample.world
      = (Ok self, Sample.world)
    ∧ length (Devices.objects self) = 1%nat
    ∧ length (Devices.hostnames self) = 2%nat.
Proof. eexists. split_and!; vm_compute; reflexivity. Qed.

Module LookupFacts.
Import Devices.

(** The id of a constructed device is generated from its name. *)
Lemma init_id (env : Env) (kwargs : RawDevice) (w w' : World) (self : Device.t) :
  Device.init env kwargs w = (Ok self, w') →
  Device.id self = Slug.generate_id (Device.name self).
Proof.
  intros Hinit. apply DeviceFacts.init_inv in Hinit as [Hv _].
  apply DeviceFacts.validated_inv in Hv as (k & name & Hk & Hname & Hsuper).
  simpl in Hsuper. apply DeviceFacts.super_init_inv in Hsuper
    as (r & name' & ? & ssl & ? & ? & _ & Hname' & _ & _ & _ & _ & ->).
  simpl in *. by injection Hname' as <-.
Qed.

Lemma generate_id_of_id (name : str) :
  Slug.generate_id (Slug.generate_id name) = Slug.generate_id name.
Proof. apply SlugFacts.generate_id_fixed, SlugFacts.generate_id_chars. Qed.

Lemma getitem_Ok_inv (self : t) (accessor : str) (device : Device.t) :
  getitem self accessor = Ok device →
  device ∈ objects self
  ∧ (Device.id device = accessor ∨ Device.name device = accessor).
Proof.
  unfold getitem. destruct (find _ (objects self)) as [d|] eqn:Hfind; [|done].
  intros [= ->]. apply find_some in Hfind as [Hin Hb].
  split; [by apply list_elem_of_In|].
  apply orb_true_iff in Hb as [Hb|Hb]; apply bool_decide_eq_true in Hb; auto.
Qed.

Lemma getitem_found (self : t) (accessor : str) (device : Device.t) :
  device ∈ objects self →
  Device.id device = accessor ∨ Device.name device = accessor →
  ∃ found, getitem self accessor = Ok found.
Proof.
  intros Hin Hmatch. unfold getitem.
  destruct (find _ (objects self)) as [d|] eqn:Hfind; [by exists d|].
  apply list_elem_of_In in Hin.
  pose proof (find_none _ _ Hfind device Hin) as Hb. simpl in Hb.
  apply orb_false_iff in Hb as [Hb1 Hb2].
  apply bool_decide_eq_false in Hb1, Hb2. tauto.
Qed.

End LookupFacts.

(** X17. In a constructed directory, looking a device of [objects] up by
    its id, and by its name, returns that device. *)
Theorem directory_lookup (env : Env) (input_params : list RawDevice)
    (w w' : World) (self : Devices.t) (device : Device.t) :
  Devices.init env input_params w = (Ok self, w') →
  device ∈ Devices.objects self →
  Devices.getitem self (Device.id device) = Ok device
  ∧ Devices.getitem self (Device.name device) = Ok device.
Proof.
  intros (devices & Hall & _ & _ & Hobjects)%DirectoryFacts.directory_init_inv Hin.
  assert (∀ d, d ∈ Devices.objects self →
               Device.id d = Slug.generate_id (Device.name d)) as Hid.
  { intros d. rewrite Hobjects, DevicesFacts.sorted_by_name_Permutation.
    intros (n & Hn%list_elem_of_lookup_2 & _)%SetFacts.elem_of_filled_set.
    pose proof (DirectoryFacts.construct_all_Forall env
                  (λ d, Device.id d = Slug.generate_id (Device.name d))
                  (λ kwargs w0 d0 w1, LookupFacts.init_id env kwargs w0 w1 d0)
                  _ _ _ _ Hall) as Hforall.
    by apply (proj1 (Forall_forall _ _) Hforall). }
  assert (NoDup (Device.id <$> Devices.objects self)) as Hnd.
  { rewrite Hobjects, DevicesFacts.sorted_by_name_Permutation.
    apply SetFacts.NoDup_filled_set_keys. }
  assert (∀ accessor found,
            Devices.getitem self accessor = Ok found →
            Slug.generate_id accessor = Device.id device →
            found = device) as Hsame.
  { intros accessor found [Hf Hmatch]%LookupFacts.getitem_Ok_inv Hacc.
    apply (SelectionFacts.NoDup_fmap_eq Device.id (Devices.objects self)); [done..|].
    destruct Hmatch as [<-|<-].
    - rewrite <- Hacc, (Hid found Hf). by rewrite LookupFacts.generate_id_of_id.
    - by rewrite (Hid found Hf). }
  split.
  - destruct (LookupFacts.getitem_found self (Device.id device) device Hin)
      as [found Hfound]; [by left|].
    rewrite Hfound. f_equal. apply (Hsame _ _ Hfound).
    rewrite (Hid device Hin). apply LookupFacts.generate_id_of_id.
  - destruct (LookupFacts.getitem_found self (Device.name device) device Hin)
      as [found Hfound]; [by right|].
    rewrite Hfound. f_equal. apply (Hsame _ _ Hfound). by rewrite (Hid device Hin).
Qed.

Lemma directory_lookup_witness :
  ∃ self w',
    Devices.init Sample.env [Sample2.secure_rtr; Sample.core_rtr] Sample.world
      = (Ok self, w')
    ∧ Devices.getitem self (py "core_rtr_1") = Ok Sample.core_device
    ∧ Devices.getitem self (py "Core RTR #1") = Ok Sample.core_device.
Proof.
  destruct (Devices.init Sample.env [Sample2.secure_rtr; Sample.core_rtr] Sample.world)
    as [[self|e] w'] eqn:H; [|vm_compute in H; discriminate].
  exists self, w'. split; [reflexivity|].
  apply (directory_lookup Sample.env _ Sample.world w' self Sample.core_device H).
  vm_compute in H. injection H as <- _. vm_compute. repeat constructor.
Defined.

(** X18. A lookup in any directory returns a device of [objects] whose id
    or name is the accessor, or raises [AttributeError]; it raises exactly
    when no device has the accessor as its id or its name. *)
Theorem lookup_miss (self : Devices.t) (accessor : str) :
  (∀ device, Devices.getitem self accessor = Ok device →
             device ∈ Devices.objects self
             ∧ (Device.id device = accessor ∨ Device.name device = accessor))
  ∧ (Devices.getitem self accessor = Raise (AttributeError accessor)
     ↔ ∀ device, device ∈ Devices.objects self →
                 Device.id device ≠ accessor ∧ Device.name device ≠ accessor)
  ∧ ((∃ device, Devices.getitem self accessor = Ok device)
     ∨ Devices.getitem self accessor = Raise (AttributeError accessor)).
Proof.
  split_and!.
  - intros device. apply LookupFacts.getitem_Ok_inv.
  - split.
    + intros Hraise device Hin. split; intros Hmatch;
        (destruct (LookupFacts.getitem_found self accessor device Hin) as [? Hfound];
         [auto | congruence]).
    + intros Hnone. unfold Devices.getitem.
      destruct (find _ (Devices.objects self)) as [d|] eqn:Hfind; [|done].
      apply find_some in Hfind as [Hin Hb]. apply list_elem_of_In, Hnone in Hin as [? ?].
      apply orb_true_iff in Hb as [Hb|Hb]; by apply bool_decide_eq_true in Hb.
  - unfold Devices.getitem. destruct (find _ (Devices.objects self)) as [d|]; eauto.
Qed.

Lemma lookup_miss_witness :
  Devices.getitem Sample.directory (py "nowhere") = Raise (AttributeError (py "nowhere")).
Proof.
  apply (proj1 (proj2 (lookup_miss Sample.directory (py "nowhere")))).
  intros device Hin. vm_compute in Hin.
  apply list_elem_of_In in Hin as [<-|[<-|[]]]; split; vm_compute; discriminate.
Defined.

(** ** Grouping by network *)

Module NetworkFacts.
Import Locations.

Lemma filter_split {A} (key : A → str) (k : str) (ks : list str) (l : list A) :
  k ∉ ks →
  filter (λ x, key x = k) l ++ filter (λ x, key x ∈ ks) l
  ≡ₚ filter (λ x, key x ∈ k :: ks) l.
Proof.
  intros Hk. induction l as [|x l IH]; [done|].
  rewrite !filter_cons.
  destruct (decide (key x = k)) as [Heq|Hne].
  - rewrite decide_False by (by rewrite Heq).
    rewrite decide_True by (rewrite Heq; by left).
    simpl. by rewrite IH.
  - destruct (decide (key x ∈ ks)) as [Hin|Hnin].
    + rewrite decide_True by (by right).
      rewrite <- Permutation_middle. by rewrite IH.
    + rewrite decide_False by (intros [?|?]%elem_of_cons; done).
      exact IH.
Qed.

Lemma concat_filter_keys {A} (key : A → str) (ks : list str) (l : list A) :
  NoDup ks →
  concat ((λ k, filter (λ x, key x = k) l) <$> ks) ≡ₚ filter (λ x, key x ∈ ks) l.
Proof.
  induction 1 as [|k ks Hk _ IH].
  - simpl. induction l as [|x l IHl]; [done|].
    rewrite filter_cons, decide_False by apply not_elem_of_nil. exact IHl.
  - rewrite fmap_cons. simpl. rewrite IH. by apply filter_split.
Qed.

Lemma filter_all {A} (P : A → Prop) `{!∀ x, Decision (P x)} (l : list A) :
  (∀ x, x ∈ l → P x) → filter P l = l.
Proof.
  induction l as [|x l IH]; intros Hall; [done|].
  rewrite filter_cons, decide_True by (apply Hall; by left).
  f_equal. apply IH. intros y Hy. apply Hall. by right.
Qed.

Lemma concat_fmap {A B} (f : A → B) (g : str → list A) (ks : list str) :
  concat ((λ k, f <$> g k) <$> ks) = f <$> concat (g <$> ks).
Proof.
  induction ks as [|k ks IH]; [done|].
  rewrite !fmap_cons. simpl. by rewrite fmap_app, IH.
Qed.

End NetworkFacts.

(** X19. [networks] partitions the devices by the display name of their
    network: the groups have pairwise distinct display names, none is
    empty, every location of a group carries the group's display name, and
    the locations of all groups together are the locations of the devices
    of [objects], each once. *)
Theorem networks_partition {F} (frontend : Directive.t → F) (self : Devices.t) :
  NoDup (Locations.display_name <$> Locations.networks frontend self)
  ∧ (∀ g, g ∈ Locations.networks frontend self →
          Locations.locations g ≠ []
          ∧ ∀ loc, loc ∈ Locations.locations g →
                   Locations.network loc = Locations.display_name g)
  ∧ concat (Locations.locations <$> Locations.networks frontend self)
    ≡ₚ Locations.location_of frontend <$> Devices.objects self.
Proof.
  unfold Locations.networks.
  set (names := list_to_set (Locations.network_of <$> Devices.objects self) : gset str).
  split_and!.
  - rewrite <- list_fmap_compose.
    rewrite (list_fmap_ext _ id (elements names)) by done.
    rewrite list_fmap_id. apply NoDup_elements.
  - intros g (name & -> & Hname)%list_elem_of_fmap. simpl. split.
    + apply elem_of_elements, elem_of_list_to_set, list_elem_of_fmap in Hname
        as (d & -> & Hd).
      intros Hnil%fmap_nil_inv.
      assert (d ∈ filter (λ device, Locations.network_of device = Locations.network_of d)
                    (Devices.objects self)) as Hin
        by by apply list_elem_of_filter.
      rewrite Hnil in Hin. by apply elem_of_nil in Hin.
    + intros loc (d & -> & [Hd _]%list_elem_of_filter)%list_elem_of_fmap. done.
  - rewrite <- list_fmap_compose.
    rewrite (list_fmap_ext _
               (λ name, Locations.location_of frontend <$>
                  filter (λ device, Locations.network_of device = name)
                    (Devices.objects self))
               (elements names)) by done.
    rewrite NetworkFacts.concat_fmap.
    rewrite (NetworkFacts.concat_filter_keys Locations.network_of)
      by apply NoDup_elements.
    rewrite NetworkFacts.filter_all; [done|].
    intros d Hd. apply elem_of_elements, elem_of_list_to_set.
    by apply list_elem_of_fmap_2.
Qed.

Lemma networks_partition_witness :
  concat (Locations.locations <$> Locations.networks Directive.id Sample.directory)
  ≡ₚ Locations.location_of Directive.id <$> Devices.objects Sample.directory.
Proof.
  exact (proj2 (proj2 (networks_partition Directive.id Sample.directory))).
Defined.

(** ** Plugins, without assumptions *)

Module PluginSound.
Import Devices SetFacts PluginFacts.

Lemma add_plugin_nonempty (i : str) (result : gmap str (gset str)) (plugin : str) :
  (∀ path s, result !! path = Some s → s ≠ ∅) →
  ∀ path s, add_plugin i result plugin !! path = Some s → s ≠ ∅.
Proof.
  intros Hres path s. unfold add_plugin.
  destruct (decide (plugin = path)) as [->|Hne].
  - rewrite lookup_alter_eq. destruct (result !! path) eqn:Hp.
    + rewrite Hp. simpl. intros [= <-]. set_solver.
    + rewrite lookup_insert_eq. simpl. intros [= <-]. set_solver.
  - rewrite lookup_alter_ne by done.
    destruct (result !! plugin); [apply Hres|].
    rewrite lookup_insert_ne by done. apply Hres.
Qed.

Lemma file_nonempty (paths : Directive.t → list str) (directives : list Directive.t)
    (result : gmap str (gset str)) :
  (∀ path s, result !! path = Some s → s ≠ ∅) →
  ∀ path s, foldl (file paths) result directives !! path = Some s → s ≠ ∅.
Proof.
  revert result. induction directives as [|d directives IH]; intros result Hres; [done|].
  cbn [foldl]. apply IH. unfold file.
  generalize (paths d). intros ps. revert result Hres.
  induction ps as [|p ps IHps]; intros result Hres; [done|].
  cbn [foldl]. apply IHps. by apply add_plugin_nonempty.
Qed.

Lemma elem_of_directive_set_1 (self : t) (d : Directive.t) :
  d ∈ set_members (directive_set self) → d ∈ directives_in_use self.
Proof.
  unfold directive_set. rewrite elem_of_filled_set.
  intros (i & Hi & _). by apply list_elem_of_lookup_2 in Hi.
Qed.

End PluginSound.

(** X20. In any directory, every entry of [directive_plugins] lists at
    least one id, lists no id twice, and each id it lists under a path is
    the id of a directive in use that refers to a plugin with that path:
    no path and no id is made up. *)
Theorem directive_plugins_sound (env : Env) (self : Devices.t) (path : str)
    (ids : list str) :
  Devices.directive_plugins env self !! path = Some ids →
  ids ≠ []
  ∧ NoDup ids
  ∧ ∀ i, i ∈ ids →
         ∃ d p, d ∈ Devices.directives_in_use self
                ∧ Directive.id d = i
                ∧ p ∈ Directive.plugins d
                ∧ Path env p = path.
Proof.
  unfold Devices.directive_plugins.
  set (directives := set_members (Devices.directive_set self)).
  set (paths := λ directive : Directive.t,
         Path env <$> filter (λ p, p ∈ Devices.plugin_names directives)
                        (Directive.plugins directive)).
  change (foldl _ ∅ directives) with (foldl (Devices.file paths) ∅ directives).
  rewrite lookup_fmap.
  destruct (foldl (Devices.file paths) ∅ directives !! path) as [s|] eqn:Hlookup;
    [|done].
  simpl. intros [= <-]. split_and!.
  - intros Hnil%elements_empty_inv%leibniz_equiv.
    by apply (PluginSound.file_nonempty paths directives ∅
                ltac:(intros ? ?; by rewrite lookup_empty) path s Hlookup).
  - apply NoDup_elements.
  - intros i Hi%elem_of_elements.
    pose proof (PluginFacts.outer_ids paths directives ∅ path i) as Hids.
    unfold Devices.ids_at in Hids. rewrite Hlookup, lookup_empty in Hids. simpl in Hids.
    apply Hids in Hi as [[]%elem_of_empty|(d & Hd & Hid & Hp)].
    apply list_elem_of_fmap in Hp as (p & -> & [_ Hp]%list_elem_of_filter).
    exists d, p. split; [by apply PluginSound.elem_of_directive_set_1 | done].
Qed.

Lemma directive_plugins_sound_witness :
  ∃ ids,
    Devices.directive_plugins Sample.env Sample.directory !! py "plugins/bgp_route.py"
      = Some ids
    ∧ ids ≠ [] ∧ NoDup ids.
Proof.
  destruct (Devices.directive_plugins Sample.env Sample.directory
              !! py "plugins/bgp_route.py") as [ids|] eqn:H;
    [|vm_compute in H; discriminate].
  exists ids. split; [reflexivity|].
  destruct (directive_plugins_sound Sample.env Sample.directory _ ids H)
    as (Hne & Hnd & _).
  split; [exact Hne | exact Hnd].
Defined.
